(** * fotoapp: the platform-aware resize-and-letterbox routine

    A shallow embedding of [fotoapp.py]: [load_image], [resize] and
    [sketch_person], together with the arithmetic they perform.

    - Python [int] is [Z]; Python [float] is a binary64 value, modelled as a
      dyadic number [mant * 2 ^ expo] produced by correct rounding
      (round-half-even to 53 bits).  The operations are validated against the
      Standard Library's [SpecFloat] on the inputs the examples use.
    - Exceptions are an error result; calls into [requests] and Pillow are
      recorded, in order, in a log threaded through the computation.
    - What Pillow and the network return is not part of the program: it is an
      environment [Env] every statement quantifies over. *)

From Stdlib Require Import ZArith QArith Qpower Qround Qabs Lia Lra Psatz.
From Stdlib Require Import Bool List String Ascii.
From Stdlib Require Import Strings.Byte.
From Stdlib Require Import Floats.SpecFloat.
Import ListNotations.
Open Scope string_scope.
Open Scope list_scope.
Open Scope Z_scope.

(* ===================================================================== *)
(** * Strings *)

(** The capitals among the code points 0..255: ASCII [A]..[Z], and the
    Latin-1 capitals U+00C0..U+00DE without the multiplication sign U+00D7. *)
Definition is_upper (n : N) : bool :=
  ((65 <=? n) && (n <=? 90) ||
   (192 <=? n) && (n <=? 222) && negb (n =? 215))%N.

(** [str.lower()] on one code point below 256: a capital moves up by 32,
    everything else stays. *)
Definition lower_char (c : ascii) : ascii :=
  let n := N_of_ascii c in
  if is_upper n then ascii_of_N (n + 32) else c.

Fixpoint lower (s : string) : string :=
  match s with
  | EmptyString => EmptyString
  | String c s' => String (lower_char c) (lower s')
  end.

(** [s.startswith(p)]. *)
Fixpoint startswith (s p : string) : bool :=
  match p, s with
  | EmptyString, _ => true
  | String _ _, EmptyString => false
  | String b p', String a s' => Ascii.eqb a b && startswith s' p'
  end.

(** Two characters are the same letter up to case: equal, or a capital and
    the small letter 32 code points above it. *)
Definition same_letter (a b : ascii) : bool :=
  let m := N_of_ascii a in
  let n := N_of_ascii b in
  ((m =? n) || is_upper m && (n =? m + 32) || is_upper n && (m =? n + 32))%N.

(** Two strings are equal up to letter case: same length, and the same letter
    at every position. *)
Fixpoint eq_ignore_case (s t : string) : bool :=
  match s, t with
  | EmptyString, EmptyString => true
  | String a s', String b t' => same_letter a b && eq_ignore_case s' t'
  | _, _ => false
  end.

(* ===================================================================== *)
(** * Python floats *)

(** A non-negative finite binary64 value [mant * 2 ^ expo]. *)
Record pyfloat : Set := mkFloat { mant : Z; expo : Z }.

Definition value (f : pyfloat) : Q := inject_Z (mant f) * 2 ^ expo f.

(** [N / D] rounded to the nearest integer, ties to even. *)
Definition rne (N D : Z) : Z :=
  let q := N / D in
  let r := N mod D in
  match 2 * r ?= D with
  | Lt => q
  | Gt => q + 1
  | Eq => if Z.even q then q else q + 1
  end.

(** The binary exponent of [n / d]: the [l] with [2^l <= n / d < 2^(l+1)]. *)
Definition ilog2_ratio (n d : Z) : Z :=
  let l := Z.log2 n - Z.log2 d in
  if n * 2 ^ Z.max 0 (- l) <? d * 2 ^ Z.max 0 l then l - 1 else l.

(** A mantissa that rounding carried up to [2^53] is renormalised. *)
Definition normalize (m e : Z) : pyfloat :=
  if m =? 2 ^ 53 then mkFloat (2 ^ 52) (e + 1) else mkFloat m e.

(** The binary64 value nearest to [n / d], for [0 <= n] and [0 < d]: the
    quotient is scaled to 53 significant bits and rounded half-even. *)
Definition round_ratio (n d : Z) : pyfloat :=
  if n =? 0 then mkFloat 0 0
  else
    let e := ilog2_ratio n d - 52 in
    normalize (rne (n * 2 ^ Z.max 0 (- e)) (d * 2 ^ Z.max 0 e)) e.

(** [float(z)]. *)
Definition float_of_int (z : Z) : pyfloat := round_ratio z 1.

(** [a * b] on floats: the exact product, correctly rounded. *)
Definition fmul (a b : pyfloat) : pyfloat :=
  let p := round_ratio (mant a * mant b) 1 in
  mkFloat (mant p) (expo p + expo a + expo b).

(** [a < b] on floats. *)
Definition flt (a b : pyfloat) : bool :=
  let e := Z.min (expo a) (expo b) in
  mant a * 2 ^ (expo a - e) <? mant b * 2 ^ (expo b - e).

(** [min(a, b)]: the first argument unless the second is smaller. *)
Definition fmin (a b : pyfloat) : pyfloat := if flt b a then b else a.

(** [int(f)]: truncation, which on a non-negative value is the floor. *)
Definition int_of_float (f : pyfloat) : Z := Z.shiftl (mant f) (expo f).

(** The same value as a [spec_float] of the Standard Library. *)
Definition to_spec (f : pyfloat) : spec_float :=
  match mant f with
  | Zpos p => S754_finite false p (expo f)
  | _ => S754_zero false
  end.

(** binary64 in [SpecFloat]: precision 53, maximal exponent 1024. *)
Definition b64_of_int (z : Z) : spec_float := binary_normalize 53 1024 z 0 false.
Definition b64_div : spec_float -> spec_float -> spec_float := SFdiv 53 1024.
Definition b64_mul : spec_float -> spec_float -> spec_float := SFmul 53 1024.

(* ===================================================================== *)
(** * Images *)

(** The modes the program converts to, [RGB] and [L], and the palette mode
    [P] a file may come in. *)
Inductive mode : Set := RGB | L | P.

Definition color : Set := (Z * Z * Z)%type.

(** A decoded image: its mode, its size and its pixels. *)
Record Image : Type := mkImage {
  im_mode : mode;
  width : Z;
  height : Z;
  getpixel : Z -> Z -> color
}.

Definition size (im : Image) : Z * Z := (width im, height im).

(** [Image.new(mode, size, color)]: a canvas of one colour. *)
Definition Image_new (m : mode) (sz : Z * Z) (c : color) : Image :=
  mkImage m (fst sz) (snd sz) (fun _ _ => c).

(** [canvas.paste(im, (x0, y0))]: the box of [im]'s size at [(x0, y0)] is
    overwritten, nothing else changes; the canvas keeps its size. *)
Definition paste (canvas im : Image) (at_ : Z * Z) : Image :=
  let '(x0, y0) := at_ in
  mkImage (im_mode canvas) (width canvas) (height canvas)
    (fun x y =>
       if (x0 <=? x) && (x <? x0 + width im) && (y0 <=? y) && (y <? y0 + height im)
       then getpixel im (x - x0) (y - y0)
       else getpixel canvas x y).

Definition white : color := (255, 255, 255).

(* ===================================================================== *)
(** * Exceptions, library calls and the environment *)

(** An exception raised inside [requests] or Pillow: class and message. *)
Definition lib_exn : Set := (string * string)%type.

Inductive exn : Set :=
| ValueError (msg : string)          (* a [raise ValueError(msg)] of fotoapp.py *)
| ZeroDivisionError
| LibraryError (e : lib_exn).        (* raised by a library, propagated *)

Record response : Set := mkResponse {
  status_code : Z;
  content : list byte
}.

Inductive image_filter : Set :=
| BLUR | CONTOUR | DETAIL | EDGE_ENHANCE | EDGE_ENHANCE_MORE
| EMBOSS | FIND_EDGES | SHARPEN | SMOOTH
| GaussianBlur (radius : Z).

(** The calls that leave the program, as the log records them. *)
Inductive call : Set :=
| requests_get_call (url : string)
| Image_open_call (path : string)
| Image_open_bytes_call (data : list byte)
| Image_resize_call (sz : Z * Z)
| Image_save_call (path : string).

(** What the network, the file system and Pillow's filters answer. *)
Record Env : Type := mkEnv {
  requests_get : string -> lib_exn + response;
  Image_open : string -> lib_exn + Image;
  Image_open_bytes : list byte -> lib_exn + Image;
  convert : mode -> Image -> Image;
  lanczos : Image -> Z * Z -> Z -> Z -> color;
  filter : image_filter -> Image -> Image;
  invert : Image -> Image;
  blend : Image -> Image -> pyfloat -> Image;
  save : Image -> string -> lib_exn + unit
}.

(** Computations that may raise and that log their library calls. *)
Definition io (A : Type) : Type := list call -> (exn + A) * list call.

Definition ret {A : Type} (a : A) : io A := fun log => (inr a, log).

Definition raise {A : Type} (e : exn) : io A := fun log => (inl e, log).

Definition bind {A B : Type} (m : io A) (k : A -> io B) : io B :=
  fun log =>
    match m log with
    | (inl e, log') => (inl e, log')
    | (inr a, log') => k a log'
    end.

Notation "x <- m ;; k" := (bind m (fun x => k))
  (at level 61, m at next level, right associativity).
Notation "m ;;; k" := (bind m (fun _ => k))
  (at level 61, right associativity).

(** A library call: logged, then its answer or its exception. *)
Definition lib_call {A : Type} (c : call) (r : lib_exn + A) : io A :=
  fun log =>
    match r with
    | inl e => (inl (LibraryError e), log ++ [c])
    | inr a => (inr a, log ++ [c])
    end.

(** [response.raise_for_status()]: statuses 400..599 raise [HTTPError]. *)
Definition raise_for_status (r : response) : io unit :=
  if (400 <=? status_code r) && (status_code r <? 600)
  then raise (LibraryError ("HTTPError", "bad status"))
  else ret tt.

(** [im.resize(size, Image.LANCZOS)]: Pillow refuses a size below one pixel
    on either axis; otherwise the result has exactly the requested size and
    the pixels the filter computes. *)
Definition Image_resize (E : Env) (im : Image) (sz : Z * Z) : io Image :=
  lib_call (Image_resize_call sz)
    (if (fst sz <? 1) || (snd sz <? 1)
     then inl ("ValueError", "height and width must be > 0")
     else inr (mkImage (im_mode im) (fst sz) (snd sz) (lanczos E im sz))).

(** [a / b] on ints. *)
Definition truediv (a b : Z) : io pyfloat :=
  if b =? 0 then raise ZeroDivisionError else ret (round_ratio a b).

(* ===================================================================== *)
(** * fotoapp.py *)

Definition PLATFORM_SIZES : list (string * (Z * Z)) :=
  [ ("youtube", (1280, 720));
    ("instagram", (1080, 1080));
    ("twitter", (1200, 675));
    ("facebook", (1200, 630)) ].

(** [d[k]] on a dict literal; [None] is [k not in d]. *)
Fixpoint lookup {V : Type} (k : string) (d : list (string * V)) : option V :=
  match d with
  | [] => None
  | (k', v) :: d' => if String.eqb k k' then Some v else lookup k d'
  end.

Definition load_image (E : Env) (url : string) : io Image :=
  if startswith (lower url) "http://" || startswith (lower url) "https://"
  then
    response <- lib_call (requests_get_call url) (requests_get E url) ;;
    raise_for_status response ;;;
    im <- lib_call (Image_open_bytes_call (content response))
            (Image_open_bytes E (content response)) ;;
    ret (convert E RGB im)
  else
    im <- lib_call (Image_open_call url) (Image_open E url) ;;
    ret (convert E RGB im).

(** The local variables of [resize], as functions of the target size
    [(tw, th)] and the source size [(w, h)], for [w] and [h] not zero. *)
Definition scale (tw th w h : Z) : pyfloat :=
  fmin (round_ratio tw w) (round_ratio th h).

Definition new_width (tw th w h : Z) : Z :=
  int_of_float (fmul (float_of_int w) (scale tw th w h)).

Definition new_height (tw th w h : Z) : Z :=
  int_of_float (fmul (float_of_int h) (scale tw th w h)).

Definition offset (tw th nw nh : Z) : Z * Z :=
  ((tw - nw) / 2, (th - nh) / 2).

Definition invalid_platform : exn := ValueError "Plataforma no valida.".

Definition resize (E : Env) (url platform : string) : io Image :=
  image <- load_image E url ;;
  let platform := lower platform in
  match lookup platform PLATFORM_SIZES with
  | None => raise invalid_platform
  | Some (target_width, target_height) =>
      let '(width, height) := size image in
      sx <- truediv target_width width ;;
      sy <- truediv target_height height ;;
      let scale := fmin sx sy in
      let new_width := int_of_float (fmul (float_of_int width) scale) in
      let new_height := int_of_float (fmul (float_of_int height) scale) in
      resized <- Image_resize E image (new_width, new_height) ;;
      let final_image := Image_new RGB (target_width, target_height) white in
      let offset := ((target_width - new_width) / 2,
                     (target_height - new_height) / 2) in
      ret (paste final_image resized offset)
  end.

Definition no_person : exn :=
  ValueError "No se detecto una persona en la imagen.".

(** The literal [0.7]. *)
Definition alpha_0_7 : pyfloat := round_ratio 7 10.

Definition sketch_person (E : Env) (image output : string) (persona : bool)
  : io Image :=
  if negb persona then raise no_person
  else
    opened <- lib_call (Image_open_call image) (Image_open E image) ;;
    let img := convert E L opened in
    let blurred := filter E (GaussianBlur 5) img in
    let inverted := invert E blurred in
    let sketch := blend E img inverted alpha_0_7 in
    let sketch := filter E FIND_EDGES sketch in
    lib_call (Image_save_call output) (save E sketch output) ;;;
    ret sketch.

(* ===================================================================== *)
(** * Quantities the statements use *)

(** The unit roundoff of binary64. *)
Definition u : Q := 1 # (2 ^ 53).

(** [|scaled_width / scaled_height - source_width / source_height|]. *)
Definition aspect_ratio_error (tw th w h : Z) : Q :=
  Qabs (inject_Z (new_width tw th w h) / inject_Z (new_height tw th w h)
        - inject_Z w / inject_Z h).

(** Pillow's answer to a resize below one pixel. *)
Definition empty_size : exn :=
  LibraryError ("ValueError", "height and width must be > 0").

(* ===================================================================== *)
(** * A concrete environment

    A file system with three pictures and no network; resampling by nearest
    neighbour and identity filters stand in for Pillow's. *)

Definition solid (w h : Z) (c : color) : Image := mkImage RGB w h (fun _ _ => c).

Definition studio : Env := {|
  requests_get := fun _ => inl ("ConnectionError", "network is unreachable");
  Image_open := fun path =>
    if String.eqb path "wide.png" then inr (solid 4000 2000 (10, 20, 30))
    else if String.eqb path "tall.png" then inr (solid 1 10000 (10, 20, 30))
    else if String.eqb path "square.png" then inr (solid 500 500 (10, 20, 30))
    else inl ("FileNotFoundError", path);
  Image_open_bytes := fun _ =>
    inl ("UnidentifiedImageError", "cannot identify image file");
  convert := fun m im => mkImage m (width im) (height im) (getpixel im);
  lanczos := fun im sz x y =>
    getpixel im (x * width im / fst sz) (y * height im / snd sz);
  filter := fun _ im => im;
  invert := fun im => im;
  blend := fun a _ _ => a;
  save := fun _ _ => inr tt
|}.

(** The five float operations of [resize], in the model and in [SpecFloat]. *)
Definition model_ops (tw th w h : Z) : list spec_float :=
  map to_spec
    [ round_ratio tw w; round_ratio th h; scale tw th w h;
      fmul (float_of_int w) (scale tw th w h);
      fmul (float_of_int h) (scale tw th w h) ].

Definition b64_ops (tw th w h : Z) : list spec_float :=
  let sx := b64_div (b64_of_int tw) (b64_of_int w) in
  let sy := b64_div (b64_of_int th) (b64_of_int h) in
  let s := match SFcompare sy sx with Some Lt => sy | _ => sx end in
  [ sx; sy; s; b64_mul (b64_of_int w) s; b64_mul (b64_of_int h) s ].

(* ===================================================================== *)
(** * The rest of fotoapp.py: filters, plots and the menu

    [Image.open] hands on the image in the mode of the file, and
    [apply_filter] and [see_filters] filter it as it is: what [img.filter]
    answers there, an image or an exception, belongs to the environment. *)

(** [str.upper()] on one code point below 256: a small letter moves down by
    32 and the sharp s (U+00DF) becomes [SS].  The micro sign (U+00B5) and
    the y with diaeresis (U+00FF), whose capitals lie above U+00FF, stand for
    their capitals; no name below contains either. *)
Definition upper_char (c : ascii) : string :=
  let n := N_of_ascii c in
  if ((97 <=? n) && (n <=? 122) ||
      (224 <=? n) && (n <=? 254) && negb (n =? 247))%N
  then String (ascii_of_N (n - 32)) EmptyString
  else if (n =? 223)%N then "SS"
  else String c EmptyString.

Fixpoint upper (s : string) : string :=
  match s with
  | EmptyString => EmptyString
  | String c s' => String.append (upper_char c) (upper s')
  end.

Definition FILTERS : list (string * image_filter) :=
  [ ("BLUR", BLUR);
    ("CONTOUR", CONTOUR);
    ("DETAIL", DETAIL);
    ("EDGE_ENHANCE", EDGE_ENHANCE);
    ("EDGE_ENHANCE_MORE", EDGE_ENHANCE_MORE);
    ("EMBOSS", EMBOSS);
    ("FIND_EDGES", FIND_EDGES);
    ("SHARPEN", SHARPEN);
    ("SMOOTH", SMOOTH) ].

(** [str(e)], as an f-string prints an exception. *)
Definition str_exn (e : exn) : string :=
  match e with
  | ValueError msg => msg
  | ZeroDivisionError => "division by zero"
  | LibraryError (_, msg) => msg
  end.

(** The calls into [matplotlib.pyplot]. *)
Inductive plt_call : Type :=
| plt_figure (figsize : Z * Z)
| plt_subplot (nrows ncols index : Z)
| plt_title (label : string) (color : option string)
| plt_imshow (im : Image)
| plt_axis (arg : string)
| plt_tight_layout
| plt_savefig (fname : string) (dpi : option Z)
| plt_show.

(** Everything the program does that can be observed, in order. *)
Inductive event : Type :=
| Lib (c : call)
| Plt (c : plt_call)
| Printed (text : string)
| Prompted (prompt : string).

(** The environment of the whole program: Pillow and the network as
    before, [ImageOps.equalize], what each pyplot call answers, and what
    [img.filter(kernel)] answers on an image that was not converted: Pillow
    refuses some, a palette image with
    [ValueError("cannot filter palette images")]. *)
Record Desk : Type := mkDesk {
  pillow : Env;
  ImageOps_equalize : Image -> Image;
  pyplot : plt_call -> lib_exn + unit;
  Image_filter : image_filter -> Image -> lib_exn + Image
}.

(** The state of a run: the lines still to be read from standard input, the
    events so far, and the two global variables. *)
Record world : Type := mkWorld {
  stdin : list string;
  events : list event;
  current_image : option Image;
  current_url : option string
}.

Definition add_events (w : world) (evs : list event) : world :=
  mkWorld (stdin w) (events w ++ evs) (current_image w) (current_url w).

Definition prog (A : Type) : Type := world -> (exn + A) * world.

Definition pure {A : Type} (a : A) : prog A := fun w => (inr a, w).

Definition throw {A : Type} (e : exn) : prog A := fun w => (inl e, w).

Definition and_then {A B : Type} (m : prog A) (k : A -> prog B) : prog B :=
  fun w =>
    match m w with
    | (inl e, w') => (inl e, w')
    | (inr a, w') => k a w'
    end.

Notation "x <~ m ;; k" := (and_then m (fun x => k))
  (at level 61, m at next level, right associativity).
Notation "m ~;; k" := (and_then m (fun _ => k))
  (at level 61, right associativity).

(** [try: body except Exception as e: handler e]. *)
Definition try_except {A : Type} (body : prog A) (handler : exn -> prog A) : prog A :=
  fun w =>
    match body w with
    | (inl e, w') => handler e w'
    | (inr a, w') => (inr a, w')
    end.

(** A computation over library calls, run inside the program: its calls
    join the events. *)
Definition lift {A : Type} (m : io A) : prog A :=
  fun w => (fst (m []), add_events w (map Lib (snd (m [])))).

(** The answer of a library method that is not recorded: its value, or its
    exception raised. *)
Definition answer {A : Type} (r : lib_exn + A) : prog A :=
  fun w =>
    (match r with
     | inl e => inl (LibraryError e)
     | inr a => inr a
     end, w).

(** A pyplot call: recorded, then its answer or its exception. *)
Definition plt (D : Desk) (c : plt_call) : prog unit :=
  fun w =>
    (match pyplot D c with
     | inl e => inl (LibraryError e)
     | inr tt => inr tt
     end, add_events w [Plt c]).

Definition print (text : string) : prog unit :=
  fun w => (inr tt, add_events w [Printed text]).

Definition EOFError : exn := LibraryError ("EOFError", "EOF when reading a line").

(** [input(prompt)]: the prompt is written, then a line is read; at the end
    of the input it raises [EOFError]. *)
Definition input (prompt : string) : prog string :=
  fun w =>
    match stdin w with
    | [] => (inl EOFError, add_events w [Prompted prompt])
    | line :: rest =>
        (inr line,
         mkWorld rest (events w ++ [Prompted prompt]) (current_image w) (current_url w))
    end.

Definition set_current_image (v : option Image) : prog unit :=
  fun w => (inr tt, mkWorld (stdin w) (events w) v (current_url w)).

Definition set_current_url (v : option string) : prog unit :=
  fun w => (inr tt, mkWorld (stdin w) (events w) (current_image w) v).

Definition equalize (D : Desk) (image : string) : io (Image * Image) :=
  opened <- lib_call (Image_open_call image) (Image_open (pillow D) image) ;;
  let img := convert (pillow D) RGB opened in
  let equalize_image := ImageOps_equalize D img in
  ret (img, equalize_image).

Definition compare (D : Desk) (original equalized : Image) (output_name : string)
  : prog unit :=
  plt D (plt_figure (10, 5)) ~;;
  plt D (plt_subplot 1 2 1) ~;;
  plt D (plt_title "Original" None) ~;;
  plt D (plt_imshow original) ~;;
  plt D (plt_axis "off") ~;;
  plt D (plt_subplot 1 2 2) ~;;
  plt D (plt_title "Ecualizada" None) ~;;
  plt D (plt_imshow equalized) ~;;
  plt D (plt_axis "off") ~;;
  plt D plt_tight_layout ~;;
  plt D (plt_savefig output_name (Some 300)) ~;;
  plt D plt_show.

Definition invalid_filter : exn := ValueError "Filtro invalido".

Definition apply_filter (D : Desk) (image filter_name : string) : prog Image :=
  let filter_name := upper filter_name in
  match lookup filter_name FILTERS with
  | None => throw invalid_filter
  | Some kernel =>
      img <~ lift (lib_call (Image_open_call image) (Image_open (pillow D) image)) ;;
      img_filter <~ answer (Image_filter D kernel img) ;;
      let save_name := String.append "result_" (String.append filter_name ".jpg") in
      lift (lib_call (Image_save_call save_name) (save (pillow D) img_filter save_name)) ~;;
      plt D (plt_figure (8, 4)) ~;;
      plt D (plt_subplot 1 2 1) ~;;
      plt D (plt_imshow img) ~;;
      plt D (plt_title "Original" None) ~;;
      plt D (plt_axis "off") ~;;
      plt D (plt_subplot 1 2 2) ~;;
      plt D (plt_imshow img_filter) ~;;
      plt D (plt_title (String.append "Filtro: " filter_name) (Some "red")) ~;;
      plt D (plt_axis "off") ~;;
      plt D plt_show ~;;
      pure img_filter
  end.

(** The [for] loop of [see_filters] over [FILTERS.items()], from cell [i]
    on; it gives the next free cell. *)
Fixpoint see_filters_loop (D : Desk) (img : Image)
  (items : list (string * image_filter)) (i : Z) : prog Z :=
  match items with
  | [] => pure i
  | (name, kernel) :: rest =>
      img_f <~ answer (Image_filter D kernel img) ;;
      plt D (plt_subplot 2 5 i) ~;;
      plt D (plt_imshow img_f) ~;;
      plt D (plt_title name None) ~;;
      plt D (plt_axis "off") ~;;
      see_filters_loop D img rest (i + 1)
  end.

Definition see_filters (D : Desk) (image : string) : prog unit :=
  img <~ lift (lib_call (Image_open_call image) (Image_open (pillow D) image)) ;;
  plt D (plt_figure (14, 6)) ~;;
  plt D (plt_subplot 2 5 1) ~;;
  plt D (plt_imshow img) ~;;
  plt D (plt_title "Original" None) ~;;
  plt D (plt_axis "off") ~;;
  see_filters_loop D img FILTERS 2 ~;;
  plt D plt_tight_layout ~;;
  plt D (plt_savefig "mosaico_9_filters.jpg" None) ~;;
  plt D plt_show.

Definition MENU : string := "
        [1] - Cargar imagen
        [2] - Redimensionar imagen
        [3] - Ecualizar contraste
        [4] - Aplicar filtro Pillow
        [5] - Generar boceto para pintores
        [0] - Salir

      ".

Definition MENU_TITLE : string := "
=== MENU ===".

Definition not_loaded : exn := ValueError "Debes de cargar la imagen primero.".

(** [current_url] where a function wants a path: it is a string whenever an
    image is loaded; [None] there would be an [AttributeError] inside the
    function called. *)
Definition the_url : prog string :=
  fun w =>
    match current_url w with
    | Some url => (inr url, w)
    | None => (inl (LibraryError ("AttributeError", "'NoneType' object has no attribute")), w)
    end.

(** What one option of the menu does, inside the [try]; [true] is [break]. *)
Definition menu_option (D : Desk) (option : string) : prog bool :=
  if String.eqb option "1" then
    url <~ input "Ingrese URL o ruta de la imagen: " ;;
    set_current_url (Some url) ~;;
    try_except
      (im <~ lift (lib_call (Image_open_call url) (Image_open (pillow D) url)) ;;
       set_current_image (Some im) ~;;
       print "[+] Imagen cargada correctamente [+]")
      (fun e =>
         print (String.append "[x] Error al cargar la imagen [x] > " (str_exn e)) ~;;
         set_current_image None) ~;;
    pure false
  else if existsb (String.eqb option) ["2"; "3"; "4"; "5"] then
    fun w =>
      match current_image w with
      | None => throw not_loaded w
      | Some _ =>
          (if String.eqb option "2" then
             platform <~ input "Plataforma (youtube / instagram / twitter / facebook): " ;;
             url <~ the_url ;;
             output <~ lift (resize (pillow D) url platform) ;;
             lift (lib_call (Image_save_call "redimensionada.png")
                     (save (pillow D) output "redimensionada.png")) ~;;
             print "[+] La imagen acaba de ser redimensionada y guardada como redimensionada.png [+]" ~;;
             pure false
           else if String.eqb option "3" then
             url <~ the_url ;;
             pair <~ lift (equalize D url) ;;
             compare D (fst pair) (snd pair) "ecualizada.png" ~;;
             print "[+] Imagen ecualizada y guardada como ecualizada.png [+]" ~;;
             pure false
           else if String.eqb option "4" then
             filter_ <~ input "Ingresa el filtro (blur, contour, detail, sharpen...): " ;;
             url <~ the_url ;;
             output <~ apply_filter D url filter_ ;;
             let name := String.append "filter_" (String.append filter_ ".png") in
             lift (lib_call (Image_save_call name) (save (pillow D) output name)) ~;;
             print (String.append "[+] Imagen filtrada guardada como " name) ~;;
             pure false
           else
             url <~ the_url ;;
             lift (sketch_person (pillow D) url "boceto.png" true) ~;;
             print "[+] Boceto generado como boceto.png [+]" ~;;
             pure false) w
      end
  else if String.eqb option "0" then
    print "saliendo..." ~;;
    pure true
  else
    print "Opcion invalida" ~;;
    pure false.

(** Options 2 to 5 on a loaded image, with the path [url] written where the
    menu reads [current_url]: the calls [resize(url, platform)],
    [equalize(url)], [apply_filter(url, filter)] and
    [sketch_person(url, "boceto.png", persona=True)] and what follows each. *)
Definition loaded_option (D : Desk) (option url : string) : prog bool :=
  if String.eqb option "2" then
    platform <~ input "Plataforma (youtube / instagram / twitter / facebook): " ;;
    output <~ lift (resize (pillow D) url platform) ;;
    lift (lib_call (Image_save_call "redimensionada.png")
            (save (pillow D) output "redimensionada.png")) ~;;
    print "[+] La imagen acaba de ser redimensionada y guardada como redimensionada.png [+]" ~;;
    pure false
  else if String.eqb option "3" then
    pair <~ lift (equalize D url) ;;
    compare D (fst pair) (snd pair) "ecualizada.png" ~;;
    print "[+] Imagen ecualizada y guardada como ecualizada.png [+]" ~;;
    pure false
  else if String.eqb option "4" then
    filter_ <~ input "Ingresa el filtro (blur, contour, detail, sharpen...): " ;;
    output <~ apply_filter D url filter_ ;;
    let name := String.append "filter_" (String.append filter_ ".png") in
    lift (lib_call (Image_save_call name) (save (pillow D) output name)) ~;;
    print (String.append "[+] Imagen filtrada guardada como " name) ~;;
    pure false
  else
    lift (sketch_person (pillow D) url "boceto.png" true) ~;;
    print "[+] Boceto generado como boceto.png [+]" ~;;
    pure false.

(** One turn of the [while True] loop. *)
Definition menu_iteration (D : Desk) : prog bool :=
  print MENU_TITLE ~;;
  print MENU ~;;
  option <~ input "Ingrese una opcion: " ;;
  try_except (menu_option D option)
    (fun error => print (String.append "Error: " (str_exn error)) ~;; pure false).

(** The loop, for at most [fuel] turns; [None] when the turns run out. *)
Fixpoint main_loop (D : Desk) (fuel : nat) (w : world)
  : option ((exn + unit) * world) :=
  match fuel with
  | O => None
  | S fuel' =>
      match menu_iteration D w with
      | (inl e, w') => Some (inl e, w')
      | (inr true, w') => Some (inr tt, w')
      | (inr false, w') => main_loop D fuel' w'
      end
  end.

(** A turn that does not end the run reads a line, so one turn more than
    there are lines is always enough. *)
Definition main (D : Desk) (w : world) : option ((exn + unit) * world) :=
  main_loop D (S (List.length (stdin w))) w.

(** The worlds in which a run that began in [w0] starts a turn of the loop:
    [w0] itself, and the world a turn leaves when it does not end the run. *)
Inductive visits (D : Desk) (w0 : world) : world -> Prop :=
| visits_first : visits D w0 w0
| visits_next (w w' : world) :
    visits D w0 w -> menu_iteration D w = (inr false, w') -> visits D w0 w'.

(** The world a run starts in. *)
Definition start (lines : list string) : world := mkWorld lines [] None None.

(** A second file system, with an image of no width, a palette image, a
    server that answers 404 for one address, and a disk that refuses one
    file name. *)
Definition vault : Env := {|
  requests_get := fun url =>
    if String.eqb url "https://example.org/gone.png"
    then inr (mkResponse 404 [])
    else inr (mkResponse 200 []);
  Image_open := fun path =>
    if String.eqb path "empty.png" then inr (solid 0 10 (1, 2, 3))
    else if String.eqb path "photo.png" then inr (solid 1920 1080 (1, 2, 3))
    else if String.eqb path "logo.gif" then inr (mkImage P 64 64 (fun _ _ => (7, 7, 7)))
    else inl ("FileNotFoundError", path);
  Image_open_bytes := fun _ => inr (solid 640 480 (1, 2, 3));
  convert := fun m im => mkImage m (width im) (height im) (getpixel im);
  lanczos := fun im sz x y =>
    getpixel im (x * width im / fst sz) (y * height im / snd sz);
  filter := fun _ im => im;
  invert := fun im => im;
  blend := fun a _ _ => a;
  save := fun _ path =>
    if String.eqb path "result_BLUR.jpg" then inl ("OSError", "disk full") else inr tt
|}.

Definition atelier : Desk := {|
  pillow := vault;
  ImageOps_equalize := fun im => im;
  pyplot := fun _ => inr tt;
  Image_filter := fun kernel im =>
    match im_mode im with
    | P => inl ("ValueError", "cannot filter palette images")
    | _ => inr (filter vault kernel im)
    end
|}.

(** What the statements below say of a computation: whatever it returns,
    it only adds events, each satisfying [P], it leaves the input and the
    global variables alone, and an exception it raises satisfies [Q]. *)
Definition emits {A : Type} (P : event -> Prop) (Q : exn -> Prop) (m : prog A) : Prop :=
  forall w r w',
    m w = (r, w') ->
    (exists evs, w' = add_events w evs /\ Forall P evs)
    /\ (forall e, r = inl e -> Q e).

(** An exception of a library, as opposed to a [raise] of the program. *)
Definition from_library (e : exn) : Prop := exists le, e = LibraryError le.

(** A library call that stays on the local file system. *)
Definition local_call (c : call) : Prop :=
  match c with
  | requests_get_call _ | Image_open_bytes_call _ => False
  | _ => True
  end.

(** An event that is not a network call. *)
Definition off_line (e : event) : Prop :=
  match e with
  | Lib c => local_call c
  | _ => True
  end.

(** The [plt.subplot] calls among some events, in order. *)
Definition subplots (evs : list event) : list (Z * Z * Z) :=
  flat_map (fun e => match e with
                     | Plt (plt_subplot r c i) => [(r, c, i)]
                     | _ => []
                     end) evs.

(** The two global variables agree: an image is held only together with
    the path it was opened from. *)
Definition consistent (D : Desk) (w : world) : Prop :=
  forall im, current_image w = Some im ->
             exists url, current_url w = Some url
                         /\ Image_open (pillow D) url = inr im.

(** A cell asked of pyplot lies in the 2 x 5 grid. *)
Definition in_grid (e : event) : Prop :=
  match e with
  | Plt (plt_subplot r c k) => r = 2 /\ c = 5 /\ 1 <= k <= 10
  | _ => True
  end.

(** A property of every step of a computation, from the world before to the
    world after. *)
Definition respects {A : Type} (R : world -> world -> Prop) (m : prog A) : Prop :=
  forall w r w', m w = (r, w') -> R w w'.

(** No line is put back on the input. *)
Definition shorter (w w' : world) : Prop :=
  (List.length (stdin w') <= List.length (stdin w))%nat.

(** The two global variables are as they were. *)
Definition same_globals (w w' : world) : Prop :=
  current_image w' = current_image w /\ current_url w' = current_url w.

(* ===================================================================== *)
(** * Rounding: integer facts *)

Lemma rne_bounds N D :
  0 < D -> 0 <= N ->
  2 * N - D <= 2 * (rne N D * D) <= 2 * N + D.
Proof.
  intros HD HN. unfold rne.
  pose proof (Z.div_mod N D ltac:(lia)) as E.
  pose proof (Z.mod_pos_bound N D HD) as B.
  set (q := N / D) in *. set (r := N mod D) in *.
  destruct (Z.compare_spec (2 * r) D); [destruct (Z.even q) | | ]; nia.
Qed.

Lemma rne_nonneg N D : 0 < D -> 0 <= N -> 0 <= rne N D.
Proof.
  intros HD HN. unfold rne.
  pose proof (Z.div_pos N D HN HD).
  destruct (2 * (N mod D) ?= D); [destruct (Z.even (N / D)) | | ]; lia.
Qed.

Lemma ilog2_ratio_spec n d :
  0 < n -> 0 < d ->
  let l := ilog2_ratio n d in
  d * 2 ^ Z.max 0 l <= n * 2 ^ Z.max 0 (- l) < 2 * (d * 2 ^ Z.max 0 l).
Proof.
  intros Hn Hd. unfold ilog2_ratio.
  destruct (Z.log2_spec n Hn) as [An Bn].
  destruct (Z.log2_spec d Hd) as [Ad Bd].
  pose proof (Z.log2_nonneg n) as Ln. pose proof (Z.log2_nonneg d) as Ld.
  set (a := Z.log2 n) in *. set (b := Z.log2 d) in *.
  rewrite <- Z.add_1_r in Bn, Bd.
  rewrite Z.pow_add_r in Bn, Bd by lia. change (2 ^ 1) with 2 in *.
  assert (Pa : 0 < 2 ^ a) by (apply Z.pow_pos_nonneg; lia).
  assert (Pb : 0 < 2 ^ b) by (apply Z.pow_pos_nonneg; lia).
  destruct (Z.ltb_spec (n * 2 ^ Z.max 0 (- (a - b))) (d * 2 ^ Z.max 0 (a - b))) as [T | T];
    cbv zeta.
  - destruct (Z_le_gt_dec 1 (a - b)) as [C | C].
    + replace (Z.max 0 (- (a - b - 1))) with 0 by lia.
      replace (Z.max 0 (a - b - 1)) with (a - b - 1) by lia.
      replace (Z.max 0 (- (a - b))) with 0 in T by lia.
      replace (Z.max 0 (a - b)) with (a - b - 1 + 1) in T by lia.
      rewrite Z.pow_add_r in T by lia. change (2 ^ 1) with 2 in T.
      assert (Pc : 0 < 2 ^ (a - b - 1)) by (apply Z.pow_pos_nonneg; lia).
      assert (E : 2 ^ a = 2 ^ b * (2 * 2 ^ (a - b - 1))).
      { rewrite <- (Z.pow_succ_r 2 (a - b - 1)) by lia.
        rewrite <- Z.pow_add_r by lia. f_equal; lia. }
      change (2 ^ 0) with 1 in *. nia.
    + replace (Z.max 0 (- (a - b - 1))) with (- (a - b) + 1) by lia.
      replace (Z.max 0 (a - b - 1)) with 0 by lia.
      replace (Z.max 0 (- (a - b))) with (- (a - b)) in T by lia.
      replace (Z.max 0 (a - b)) with 0 in T by lia.
      rewrite Z.pow_add_r by lia. change (2 ^ 1) with 2. change (2 ^ 0) with 1 in *.
      assert (Pc : 0 < 2 ^ (- (a - b))) by (apply Z.pow_pos_nonneg; lia).
      assert (E : 2 ^ b = 2 ^ a * 2 ^ (- (a - b))).
      { rewrite <- Z.pow_add_r by lia. f_equal; lia. }
      nia.
  - split; [lia |].
    destruct (Z_le_gt_dec 0 (a - b)) as [C | C].
    + replace (Z.max 0 (- (a - b))) with 0 by lia.
      replace (Z.max 0 (a - b)) with (a - b) by lia.
      change (2 ^ 0) with 1.
      assert (Pc : 0 < 2 ^ (a - b)) by (apply Z.pow_pos_nonneg; lia).
      assert (E : 2 ^ a = 2 ^ b * 2 ^ (a - b)).
      { rewrite <- Z.pow_add_r by lia. f_equal; lia. }
      nia.
    + replace (Z.max 0 (- (a - b))) with (- (a - b)) by lia.
      replace (Z.max 0 (a - b)) with 0 by lia.
      change (2 ^ 0) with 1.
      assert (Pc : 0 < 2 ^ (- (a - b))) by (apply Z.pow_pos_nonneg; lia).
      assert (E : 2 ^ b = 2 ^ a * 2 ^ (- (a - b))).
      { rewrite <- Z.pow_add_r by lia. f_equal; lia. }
      nia.
Qed.

(* ===================================================================== *)
(** * Rounding: the values denoted *)

Lemma Qpow2_pos e : (0 < 2 ^ e)%Q.
Proof. apply Qpower_0_lt. reflexivity. Qed.

Lemma Qpow2_inject k : 0 <= k -> (inject_Z (2 ^ k) == 2 ^ k)%Q.
Proof. intros Hk. rewrite Zpower_Qpower by assumption. reflexivity. Qed.

Lemma pow2_split e :
  (inject_Z (2 ^ Z.max 0 e) == 2 ^ e * inject_Z (2 ^ Z.max 0 (- e)))%Q.
Proof.
  destruct (Z_le_gt_dec 0 e) as [C | C].
  - replace (Z.max 0 e) with e by lia. replace (Z.max 0 (- e)) with 0 by lia.
    rewrite Qpow2_inject by assumption. change (inject_Z (2 ^ 0)) with 1%Q. ring.
  - replace (Z.max 0 e) with 0 by lia. replace (Z.max 0 (- e)) with (- e) by lia.
    rewrite (Qpow2_inject (- e)) by lia.
    assert (E : (2 ^ e * 2 ^ (- e) == 2 ^ (e + - e))%Q)
      by (symmetry; apply Qpower_plus; discriminate).
    rewrite E. replace (e + - e) with 0 by lia. reflexivity.
Qed.

Lemma pow2_max_pos e : 0 < 2 ^ Z.max 0 e.
Proof. apply Z.pow_pos_nonneg; lia. Qed.

(** Transfer of an integer inequality between scaled numerators to the
    rational values they denote. *)
Lemma scaled_le_value (a b m e : Z) :
  a * 2 ^ Z.max 0 (- e) <= b * (m * 2 ^ Z.max 0 e) ->
  (inject_Z a <= inject_Z b * (inject_Z m * 2 ^ e))%Q.
Proof.
  intros H. pose proof (pow2_max_pos (- e)) as P.
  apply Qmult_le_r with (z := inject_Z (2 ^ Z.max 0 (- e))).
  - change 0%Q with (inject_Z 0). rewrite <- Zlt_Qlt. exact P.
  - setoid_replace (inject_Z b * (inject_Z m * 2 ^ e) * inject_Z (2 ^ Z.max 0 (- e)))%Q
      with (inject_Z b * (inject_Z m * inject_Z (2 ^ Z.max 0 e)))%Q
      by (rewrite (pow2_split e); ring).
    rewrite <- !inject_Z_mult. rewrite <- Zle_Qle. exact H.
Qed.

Lemma value_le_scaled (a b m e : Z) :
  b * (m * 2 ^ Z.max 0 e) <= a * 2 ^ Z.max 0 (- e) ->
  (inject_Z b * (inject_Z m * 2 ^ e) <= inject_Z a)%Q.
Proof.
  intros H. pose proof (pow2_max_pos (- e)) as P.
  apply Qmult_le_r with (z := inject_Z (2 ^ Z.max 0 (- e))).
  - change 0%Q with (inject_Z 0). rewrite <- Zlt_Qlt. exact P.
  - setoid_replace (inject_Z b * (inject_Z m * 2 ^ e) * inject_Z (2 ^ Z.max 0 (- e)))%Q
      with (inject_Z b * (inject_Z m * inject_Z (2 ^ Z.max 0 e)))%Q
      by (rewrite (pow2_split e); ring).
    rewrite <- !inject_Z_mult. rewrite <- Zle_Qle. exact H.
Qed.

Lemma value_normalize m e :
  (value (normalize m e) == inject_Z m * 2 ^ e)%Q.
Proof.
  unfold normalize, value. destruct (Z.eqb_spec m (2 ^ 53)) as [-> | _]; cbn [mant expo]; [| reflexivity].
  rewrite Qpower_plus by discriminate.
  change (2 ^ 1)%Q with 2%Q. generalize (2 ^ e)%Q; intros x.
  change (inject_Z (2 ^ 53)) with (inject_Z (2 ^ 52 * 2)).
  rewrite inject_Z_mult. generalize (inject_Z (2 ^ 52)); intros y.
  change (inject_Z 2) with 2%Q. ring.
Qed.

Lemma value_nonneg_of_mant f : 0 <= mant f -> (0 <= value f)%Q.
Proof.
  intros H. unfold value. apply Qmult_le_0_compat.
  - change 0%Q with (inject_Z 0). rewrite <- Zle_Qle. exact H.
  - apply Qlt_le_weak, Qpow2_pos.
Qed.

(** Scaled by the exponent [round_ratio] picks, the quotient has exactly 53
    bits before the binary point. *)
Lemma scaled_quotient_range n d :
  0 < n -> 0 < d ->
  let e := ilog2_ratio n d - 52 in
  2 ^ 52 * (d * 2 ^ Z.max 0 e) <= n * 2 ^ Z.max 0 (- e)
  < 2 ^ 53 * (d * 2 ^ Z.max 0 e).
Proof.
  intros Hn Hd. cbv zeta.
  pose proof (ilog2_ratio_spec n d Hn Hd) as S. cbv zeta in S.
  set (l := ilog2_ratio n d) in *.
  pose proof (pow2_max_pos l). pose proof (pow2_max_pos (- l)).
  change (2 ^ 53) with (2 * 2 ^ 52).
  destruct (Z_le_gt_dec 52 l) as [C | C].
  - replace (Z.max 0 (- (l - 52))) with 0 by lia.
    replace (Z.max 0 (l - 52)) with (l - 52) by lia.
    replace (Z.max 0 l) with (52 + (l - 52)) in S by lia.
    replace (Z.max 0 (- l)) with 0 in S by lia.
    rewrite Z.pow_add_r in S by lia. lia.
  - replace (Z.max 0 (- (l - 52))) with (52 - l) by lia.
    replace (Z.max 0 (l - 52)) with 0 by lia.
    destruct (Z_le_gt_dec 0 l) as [C' | C'].
    + replace (Z.max 0 l) with l in S by lia.
      replace (Z.max 0 (- l)) with 0 in S by lia.
      assert (E : 2 ^ 52 = 2 ^ l * 2 ^ (52 - l)).
      { rewrite <- Z.pow_add_r by lia. f_equal; lia. }
      assert (0 < 2 ^ (52 - l)) by (apply Z.pow_pos_nonneg; lia).
      change (2 ^ 0) with 1 in *. nia.
    + replace (Z.max 0 l) with 0 in S by lia.
      replace (Z.max 0 (- l)) with (- l) in S by lia.
      assert (E : 2 ^ (52 - l) = 2 ^ 52 * 2 ^ (- l)).
      { rewrite <- Z.pow_add_r by lia. f_equal; lia. }
      change (2 ^ 0) with 1 in *. nia.
Qed.

(** The rounded quotient has a 53-bit significand: it is a binary64 number
    (the exponent range aside). *)
Lemma round_ratio_significand n d :
  0 < n -> 0 < d ->
  2 ^ 52 <= mant (round_ratio n d) < 2 ^ 53.
Proof.
  intros Hn Hd. unfold round_ratio.
  destruct (Z.eqb_spec n 0) as [-> | _]; [lia |].
  cbv zeta. pose proof (scaled_quotient_range n d Hn Hd) as L. cbv zeta in L.
  set (e := ilog2_ratio n d - 52) in *.
  set (N := n * 2 ^ Z.max 0 (- e)) in *. set (D := d * 2 ^ Z.max 0 e) in *.
  assert (PD : 0 < D) by (pose proof (pow2_max_pos e); nia).
  assert (PN : 0 <= N) by (pose proof (pow2_max_pos (- e)); nia).
  pose proof (rne_bounds N D PD PN) as R.
  set (m := rne N D) in *.
  assert (M : 2 ^ 52 <= m <= 2 ^ 53) by (change (2 ^ 53) with (2 * 2 ^ 52) in *; nia).
  unfold normalize. destruct (Z.eqb_spec m (2 ^ 53)); cbn [mant]; lia.
Qed.

(** Correct rounding: the quotient rounded to 53 bits is within half a unit
    in the last place, hence within relative error 2^-53. *)
Lemma round_ratio_error n d :
  0 < n -> 0 < d ->
  (inject_Z (2 ^ 53 - 1) * inject_Z n
     <= inject_Z (2 ^ 53 * d) * value (round_ratio n d)
     <= inject_Z (2 ^ 53 + 1) * inject_Z n)%Q.
Proof.
  intros Hn Hd. unfold round_ratio.
  destruct (Z.eqb_spec n 0) as [-> | _]; [lia |].
  cbv zeta. set (e := ilog2_ratio n d - 52).
  rewrite value_normalize.
  set (N := n * 2 ^ Z.max 0 (- e)). set (D := d * 2 ^ Z.max 0 e).
  assert (PD : 0 < D) by (pose proof (pow2_max_pos e); nia).
  assert (PN : 0 <= N) by (pose proof (pow2_max_pos (- e)); nia).
  pose proof (rne_bounds N D PD PN) as R.
  assert (L : 2 ^ 52 * D <= N) by apply (scaled_quotient_range n d Hn Hd).
  set (m := rne N D) in *.
  split.
  - rewrite <- inject_Z_mult. apply scaled_le_value. fold N.
    replace (m * 2 ^ Z.max 0 e) with (m * 2 ^ Z.max 0 e) by reflexivity.
    subst D. nia.
  - rewrite <- inject_Z_mult. apply value_le_scaled. fold N. subst D. nia.
Qed.

Lemma value_scaled m e :
  (inject_Z m * 2 ^ e * inject_Z (2 ^ Z.max 0 (- e))
   == inject_Z (m * 2 ^ Z.max 0 e))%Q.
Proof. rewrite inject_Z_mult, (pow2_split e). ring. Qed.

Lemma scaled_lt_value (a m e : Z) :
  a * 2 ^ Z.max 0 (- e) < m * 2 ^ Z.max 0 e ->
  (inject_Z a < inject_Z m * 2 ^ e)%Q.
Proof.
  intros H. pose proof (pow2_max_pos (- e)) as P.
  apply Qmult_lt_r with (z := inject_Z (2 ^ Z.max 0 (- e))).
  - change 0%Q with (inject_Z 0). rewrite <- Zlt_Qlt. exact P.
  - rewrite value_scaled, <- inject_Z_mult, <- Zlt_Qlt. exact H.
Qed.

Lemma value_lt_scaled (a m e : Z) :
  m * 2 ^ Z.max 0 e < a * 2 ^ Z.max 0 (- e) ->
  (inject_Z m * 2 ^ e < inject_Z a)%Q.
Proof.
  intros H. pose proof (pow2_max_pos (- e)) as P.
  apply Qmult_lt_r with (z := inject_Z (2 ^ Z.max 0 (- e))).
  - change 0%Q with (inject_Z 0). rewrite <- Zlt_Qlt. exact P.
  - rewrite value_scaled, <- inject_Z_mult, <- Zlt_Qlt. exact H.
Qed.

Lemma mant_normalize_nonneg m e : 0 <= m -> 0 <= mant (normalize m e).
Proof.
  intros H. unfold normalize. destruct (m =? 2 ^ 53); cbn [mant]; [| exact H].
  apply Z.pow_nonneg. lia.
Qed.

Lemma mant_round_ratio_nonneg n d :
  0 <= n -> 0 < d -> 0 <= mant (round_ratio n d).
Proof.
  intros Hn Hd. unfold round_ratio. destruct (n =? 0); cbn [mant]; [lia |].
  apply mant_normalize_nonneg, rne_nonneg.
  - pose proof (pow2_max_pos (ilog2_ratio n d - 52)). nia.
  - pose proof (pow2_max_pos (- (ilog2_ratio n d - 52))). nia.
Qed.

Lemma round_ratio_bounds n d :
  0 < n -> 0 < d ->
  (inject_Z n * (1 - u) <= value (round_ratio n d) * inject_Z d
     <= inject_Z n * (1 + u))%Q.
Proof.
  intros Hn Hd. pose proof (round_ratio_error n d Hn Hd) as [Lo Hi].
  rewrite inject_Z_mult in Lo, Hi.
  set (V := value (round_ratio n d)) in *.
  set (N := inject_Z n) in *. set (D := inject_Z d) in *.
  unfold u. change (inject_Z (2 ^ 53 - 1)) with (9007199254740991 # 1)%Q in Lo.
  change (inject_Z (2 ^ 53 + 1)) with (9007199254740993 # 1)%Q in Hi.
  change (inject_Z (2 ^ 53)) with (9007199254740992 # 1)%Q in Lo, Hi.
  change (1 # 2 ^ 53)%Q with (1 # 9007199254740992)%Q.
  split; lra.
Qed.

Lemma value_float_of_int_bounds w :
  0 < w ->
  (inject_Z w * (1 - u) <= value (float_of_int w) <= inject_Z w * (1 + u))%Q.
Proof.
  intros Hw. pose proof (round_ratio_bounds w 1 Hw ltac:(lia)) as H.
  unfold float_of_int. change (inject_Z 1) with 1%Q in H.
  rewrite Qmult_1_r in H. exact H.
Qed.

(** A product of floats is the exact product up to one rounding. *)
Lemma value_fmul_bounds a b :
  0 <= mant a -> 0 <= mant b ->
  (value a * value b * (1 - u) <= value (fmul a b)
     <= value a * value b * (1 + u))%Q.
Proof.
  intros Ha Hb. unfold fmul, value; cbn [mant expo].
  rewrite !Qpower_plus by discriminate.
  pose proof (Qpow2_pos (expo a)) as Pa. pose proof (Qpow2_pos (expo b)) as Pb.
  set (ea := (2 ^ expo a)%Q) in *. set (eb := (2 ^ expo b)%Q) in *.
  assert (Pab : (0 < ea * eb)%Q) by (apply Qmult_lt_0_compat; assumption).
  destruct (Z.eq_dec (mant a * mant b) 0) as [Z0 | NZ].
  - rewrite Z0. change (round_ratio 0 1) with (mkFloat 0 0); cbn [mant expo].
    assert (E : (inject_Z (mant a) * inject_Z (mant b) == 0)%Q)
      by (rewrite <- inject_Z_mult, Z0; reflexivity).
    setoid_replace (inject_Z (mant a) * ea * (inject_Z (mant b) * eb))%Q
      with (inject_Z (mant a) * inject_Z (mant b) * (ea * eb))%Q by ring.
    rewrite E. split; ring_simplify; apply Qle_refl.
  - assert (P : 0 < mant a * mant b) by nia.
    pose proof (round_ratio_bounds _ 1 P ltac:(lia)) as [Lo Hi].
    change (inject_Z 1) with 1%Q in Lo, Hi. rewrite Qmult_1_r in Lo, Hi.
    unfold value in Lo, Hi. rewrite inject_Z_mult in Lo, Hi.
    set (p := round_ratio (mant a * mant b) 1) in *.
    set (V := (inject_Z (mant p) * 2 ^ expo p)%Q) in *.
    set (A := inject_Z (mant a)) in *. set (B := inject_Z (mant b)) in *.
    setoid_replace (inject_Z (mant p) * (2 ^ expo p * ea * eb))%Q
      with (V * (ea * eb))%Q by (unfold V; ring).
    setoid_replace (A * ea * (B * eb) * (1 - u))%Q
      with (A * B * (1 - u) * (ea * eb))%Q by ring.
    setoid_replace (A * ea * (B * eb) * (1 + u))%Q
      with (A * B * (1 + u) * (ea * eb))%Q by ring.
    split; apply Qmult_le_compat_r; try assumption; apply Qlt_le_weak, Pab.
Qed.

Lemma mant_fmul_nonneg a b :
  0 <= mant a -> 0 <= mant b -> 0 <= mant (fmul a b).
Proof.
  intros Ha Hb. unfold fmul; cbn [mant].
  apply mant_round_ratio_nonneg; nia.
Qed.

(** Comparison of floats is comparison of their values. *)
Lemma flt_spec a b : flt a b = true <-> (value a < value b)%Q.
Proof.
  unfold flt, value. set (e := Z.min (expo a) (expo b)).
  assert (Sa : (inject_Z (mant a) * 2 ^ expo a
                == inject_Z (mant a * 2 ^ (expo a - e)) * 2 ^ e)%Q).
  { rewrite inject_Z_mult, Qpow2_inject by lia.
    rewrite <- Qmult_assoc, <- Qpower_plus by discriminate.
    replace (expo a - e + e) with (expo a) by lia. reflexivity. }
  assert (Sb : (inject_Z (mant b) * 2 ^ expo b
                == inject_Z (mant b * 2 ^ (expo b - e)) * 2 ^ e)%Q).
  { rewrite inject_Z_mult, Qpow2_inject by lia.
    rewrite <- Qmult_assoc, <- Qpower_plus by discriminate.
    replace (expo b - e + e) with (expo b) by lia. reflexivity. }
  rewrite Sa, Sb, Z.ltb_lt, (Qmult_lt_r _ _ _ (Qpow2_pos e)), <- Zlt_Qlt.
  reflexivity.
Qed.

Lemma fmin_cases a b : fmin a b = a \/ fmin a b = b.
Proof. unfold fmin. destruct (flt b a); auto. Qed.

Lemma value_fmin_le_l a b : (value (fmin a b) <= value a)%Q.
Proof.
  unfold fmin. destruct (flt b a) eqn:E.
  - apply Qlt_le_weak, flt_spec, E.
  - apply Qle_refl.
Qed.

Lemma value_fmin_le_r a b : (value (fmin a b) <= value b)%Q.
Proof.
  unfold fmin. destruct (flt b a) eqn:E.
  - apply Qle_refl.
  - apply Qnot_lt_le. intros H. apply flt_spec in H. congruence.
Qed.

(** [int] of a non-negative float is the floor of its value. *)
Lemma int_of_float_bounds f :
  (inject_Z (int_of_float f) <= value f < inject_Z (int_of_float f) + 1)%Q.
Proof.
  unfold int_of_float, value. destruct f as [m e]; cbn [mant expo].
  pose proof (pow2_max_pos e) as Pe. pose proof (pow2_max_pos (- e)) as Pn.
  setoid_replace (inject_Z (Z.shiftl m e) + 1)%Q
    with (inject_Z (Z.shiftl m e + 1))%Q by (rewrite inject_Z_plus; reflexivity).
  destruct (Z_le_gt_dec 0 e) as [C | C].
  - rewrite Z.shiftl_mul_pow2 by assumption.
    replace (Z.max 0 e) with e in * by lia.
    split.
    + setoid_replace (inject_Z m * 2 ^ e)%Q with (1 * (inject_Z m * 2 ^ e))%Q by ring.
      change 1%Q with (inject_Z 1). apply scaled_le_value.
      replace (Z.max 0 (- e)) with 0 by lia. replace (Z.max 0 e) with e by lia.
      change (2 ^ 0) with 1. lia.
    + apply value_lt_scaled.
      replace (Z.max 0 (- e)) with 0 by lia. replace (Z.max 0 e) with e by lia.
      change (2 ^ 0) with 1. lia.
  - assert (S : Z.shiftl m e = m / 2 ^ (- e)).
    { replace e with (- - e) at 1 by lia.
      rewrite Z.shiftl_opp_r. apply Z.shiftr_div_pow2. lia. }
    rewrite S.
    assert (P : 0 < 2 ^ (- e)) by (apply Z.pow_pos_nonneg; lia).
    pose proof (Z.div_mod m (2 ^ (- e)) ltac:(lia)) as E.
    pose proof (Z.mod_pos_bound m (2 ^ (- e)) P) as B.
    split.
    + setoid_replace (inject_Z m * 2 ^ e)%Q with (1 * (inject_Z m * 2 ^ e))%Q by ring.
      change 1%Q with (inject_Z 1). apply scaled_le_value.
      replace (Z.max 0 (- e)) with (- e) by lia. replace (Z.max 0 e) with 0 by lia.
      change (2 ^ 0) with 1. nia.
    + apply value_lt_scaled.
      replace (Z.max 0 (- e)) with (- e) by lia. replace (Z.max 0 e) with 0 by lia.
      change (2 ^ 0) with 1. nia.
Qed.

Lemma int_of_float_floor f : int_of_float f = Qfloor (value f).
Proof.
  destruct (int_of_float_bounds f) as [Lo Hi].
  apply Z.le_antisymm.
  - rewrite <- (Qfloor_Z (int_of_float f)). apply Qfloor_resp_le, Lo.
  - apply Z.lt_succ_r. rewrite Zlt_Qlt.
    apply Qle_lt_trans with (y := value f); [apply Qfloor_le |].
    unfold Z.succ. rewrite inject_Z_plus. exact Hi.
Qed.

Lemma int_of_float_nonneg f : 0 <= mant f -> 0 <= int_of_float f.
Proof.
  intros H. unfold int_of_float. apply Z.shiftl_nonneg. exact H.
Qed.

(* ===================================================================== *)
(** * The fit arithmetic *)

Lemma PLATFORM_SIZES_cases name tw th :
  lookup name PLATFORM_SIZES = Some (tw, th) ->
  (tw, th) = (1280, 720) \/ (tw, th) = (1080, 1080) \/
  (tw, th) = (1200, 675) \/ (tw, th) = (1200, 630).
Proof.
  unfold PLATFORM_SIZES; cbn [lookup].
  repeat (destruct (String.eqb name _); [intros [= <- <-]; auto |]).
  discriminate.
Qed.

Lemma PLATFORM_SIZES_bounds name tw th :
  lookup name PLATFORM_SIZES = Some (tw, th) ->
  0 < tw <= 1280 /\ 0 < th <= 1080.
Proof.
  intros H. apply PLATFORM_SIZES_cases in H.
  destruct H as [E | [E | [E | E]]]; injection E as -> ->; lia.
Qed.

Lemma inject_Z_pos z : 0 < z -> (0 < inject_Z z)%Q.
Proof. intros H. change 0%Q with (inject_Z 0). rewrite <- Zlt_Qlt. exact H. Qed.

Lemma inject_Z_nonneg z : 0 <= z -> (0 <= inject_Z z)%Q.
Proof. intros H. change 0%Q with (inject_Z 0). rewrite <- Zle_Qle. exact H. Qed.

Section Fit.

Variables tw th w h : Z.
Hypothesis Hw : 0 < w.
Hypothesis Hh : 0 < h.
Hypothesis Htw : 0 < tw.
Hypothesis Hth : 0 < th.

Let S : Q := value (scale tw th w h).

Lemma mant_scale_nonneg : 0 <= mant (scale tw th w h).
Proof using Hw Hh Htw Hth.
  unfold scale.
  destruct (fmin_cases (round_ratio tw w) (round_ratio th h)) as [-> | ->];
    apply mant_round_ratio_nonneg; lia.
Qed.

Lemma scale_nonneg : (0 <= S)%Q.
Proof using Hw Hh Htw Hth. apply value_nonneg_of_mant, mant_scale_nonneg. Qed.

(** The scale never exceeds either exact ratio by more than one rounding. *)
Lemma scale_width_le : (S * inject_Z w <= inject_Z tw * (1 + u))%Q.
Proof using Hw Hh Htw Hth.
  pose proof (round_ratio_bounds tw w Htw Hw) as [_ B].
  pose proof (value_fmin_le_l (round_ratio tw w) (round_ratio th h)) as M.
  pose proof (inject_Z_pos w Hw) as P.
  apply Qle_trans with (y := (value (round_ratio tw w) * inject_Z w)%Q); [| exact B].
  apply Qmult_le_compat_r; [exact M | apply Qlt_le_weak, P].
Qed.

Lemma scale_height_le : (S * inject_Z h <= inject_Z th * (1 + u))%Q.
Proof using Hw Hh Htw Hth.
  pose proof (round_ratio_bounds th h Hth Hh) as [_ B].
  pose proof (value_fmin_le_r (round_ratio tw w) (round_ratio th h)) as M.
  pose proof (inject_Z_pos h Hh) as P.
  apply Qle_trans with (y := (value (round_ratio th h) * inject_Z h)%Q); [| exact B].
  apply Qmult_le_compat_r; [exact M | apply Qlt_le_weak, P].
Qed.

(** The product [d * scale], as a float, against the exact [d * S]. *)
Lemma product_bounds d :
  0 < d ->
  let P := value (fmul (float_of_int d) (scale tw th w h)) in
  (S * inject_Z d * ((1 - u) * (1 - u)) <= P
     <= S * inject_Z d * ((1 + u) * (1 + u)))%Q.
Proof using Hw Hh Htw Hth.
  intros Hd P0.
  pose proof (value_float_of_int_bounds d Hd) as [Wl Wh].
  assert (Md : 0 <= mant (float_of_int d))
    by (apply mant_round_ratio_nonneg; lia).
  pose proof (value_fmul_bounds _ _ Md mant_scale_nonneg) as [Pl Ph].
  fold S in Pl, Ph. fold P0 in Pl, Ph.
  pose proof scale_nonneg as Sn.
  set (D := value (float_of_int d)) in *. set (d' := inject_Z d) in *.
  assert (A : (D * S <= d' * (1 + u) * S)%Q) by (apply Qmult_le_compat_r; assumption).
  assert (B : (d' * (1 - u) * S <= D * S)%Q) by (apply Qmult_le_compat_r; assumption).
  unfold u in *. change (1 # 2 ^ 53)%Q with (1 # 9007199254740992)%Q in *.
  split; lra.
Qed.

End Fit.

Lemma Zlt_of_Qlt a b : (inject_Z a < inject_Z b)%Q -> a < b.
Proof. intros H. rewrite Zlt_Qlt. exact H. Qed.

(** The scaled width fits the target width. *)
Lemma new_width_fits tw th w h :
  0 < w -> 0 < h -> 0 < tw <= 1280 -> 0 < th ->
  0 <= new_width tw th w h <= tw.
Proof.
  intros Hw Hh Htw Hth. unfold new_width. split.
  - apply int_of_float_nonneg, mant_fmul_nonneg.
    + apply mant_round_ratio_nonneg; lia.
    + apply mant_scale_nonneg; lia.
  - pose proof (product_bounds tw th w h Hw Hh ltac:(lia) ltac:(lia) w Hw) as [_ Ph]; cbv zeta in Ph.
    pose proof (scale_width_le tw th w h Hw Hh ltac:(lia) ltac:(lia)) as Sw.
    pose proof (int_of_float_bounds (fmul (float_of_int w) (scale tw th w h))) as [Fl _].
    set (P := value (fmul (float_of_int w) (scale tw th w h))) in *.
    set (n := int_of_float (fmul (float_of_int w) (scale tw th w h))) in *.
    set (X := (value (scale tw th w h) * inject_Z w)%Q) in *.
    assert (T : (inject_Z tw <= 1280)%Q).
    { change 1280%Q with (inject_Z 1280). rewrite <- Zle_Qle. lia. }
    apply Z.lt_succ_r, Zlt_of_Qlt. unfold Z.succ. rewrite inject_Z_plus.
    change (inject_Z 1) with 1%Q.
    unfold u in *. change (1 # 2 ^ 53)%Q with (1 # 9007199254740992)%Q in *.
    lra.
Qed.

(** The scaled height fits the target height. *)
Lemma new_height_fits tw th w h :
  0 < w -> 0 < h -> 0 < tw -> 0 < th <= 1080 ->
  0 <= new_height tw th w h <= th.
Proof.
  intros Hw Hh Htw Hth. unfold new_height. split.
  - apply int_of_float_nonneg, mant_fmul_nonneg.
    + apply mant_round_ratio_nonneg; lia.
    + apply mant_scale_nonneg; lia.
  - pose proof (product_bounds tw th w h Hw Hh ltac:(lia) ltac:(lia) h Hh) as [_ Ph]; cbv zeta in Ph.
    pose proof (scale_height_le tw th w h Hw Hh ltac:(lia) ltac:(lia)) as Sh.
    pose proof (int_of_float_bounds (fmul (float_of_int h) (scale tw th w h))) as [Fl _].
    set (P := value (fmul (float_of_int h) (scale tw th w h))) in *.
    set (n := int_of_float (fmul (float_of_int h) (scale tw th w h))) in *.
    set (X := (value (scale tw th w h) * inject_Z h)%Q) in *.
    assert (T : (inject_Z th <= 1080)%Q).
    { change 1080%Q with (inject_Z 1080). rewrite <- Zle_Qle. lia. }
    apply Z.lt_succ_r, Zlt_of_Qlt. unfold Z.succ. rewrite inject_Z_plus.
    change (inject_Z 1) with 1%Q.
    unfold u in *. change (1 # 2 ^ 53)%Q with (1 # 9007199254740992)%Q in *.
    lra.
Qed.

(** Both axes are scaled by the same factor and then truncated: the cross
    products of scaled and source sizes differ by less than one source
    dimension. *)
Lemma scaled_cross_products tw th w h :
  0 < w < 2 ^ 31 -> 0 < h < 2 ^ 31 -> 0 < tw <= 1280 -> 0 < th <= 1080 ->
  - h <= new_width tw th w h * h - new_height tw th w h * w <= w.
Proof.
  intros [Hw Hw'] [Hh Hh'] Htw Hth.
  pose proof (product_bounds tw th w h Hw Hh ltac:(lia) ltac:(lia) w Hw) as [Pwl Pwh]; cbv zeta in Pwl, Pwh.
  pose proof (product_bounds tw th w h Hw Hh ltac:(lia) ltac:(lia) h Hh) as [Phl Phh]; cbv zeta in Phl, Phh.
  pose proof (scale_width_le tw th w h Hw Hh ltac:(lia) ltac:(lia)) as Sw.
  pose proof (scale_height_le tw th w h Hw Hh ltac:(lia) ltac:(lia)) as Sh.
  pose proof (scale_nonneg tw th w h Hw Hh ltac:(lia) ltac:(lia)) as Sn.
  pose proof (int_of_float_bounds (fmul (float_of_int w) (scale tw th w h))) as [Fwl Fwh].
  pose proof (int_of_float_bounds (fmul (float_of_int h) (scale tw th w h))) as [Fhl Fhh].
  fold (new_width tw th w h) in Fwl, Fwh. fold (new_height tw th w h) in Fhl, Fhh.
  set (nw := new_width tw th w h) in *. set (nh := new_height tw th w h) in *.
  set (Pw := value (fmul (float_of_int w) (scale tw th w h))) in *.
  set (Ph := value (fmul (float_of_int h) (scale tw th w h))) in *.
  set (S := value (scale tw th w h)) in *.
  pose proof (inject_Z_pos w Hw) as Qw. pose proof (inject_Z_pos h Hh) as Qh.
  assert (Tw : (inject_Z tw <= 1280)%Q).
  { change 1280%Q with (inject_Z 1280). rewrite <- Zle_Qle. lia. }
  assert (Th : (inject_Z th <= 1080)%Q).
  { change 1080%Q with (inject_Z 1080). rewrite <- Zle_Qle. lia. }
  assert (Bw : (inject_Z w <= 2147483648)%Q).
  { change 2147483648%Q with (inject_Z (2 ^ 31)). rewrite <- Zle_Qle. lia. }
  assert (Bh : (inject_Z h <= 2147483648)%Q).
  { change 2147483648%Q with (inject_Z (2 ^ 31)). rewrite <- Zle_Qle. lia. }
  set (qw := inject_Z w) in *. set (qh := inject_Z h) in *.
  set (qnw := inject_Z nw) in *. set (qnh := inject_Z nh) in *.
  unfold u in *. change (1 # 2 ^ 53)%Q with (1 # 9007199254740992)%Q in *.
  (* products against the other source dimension *)
  assert (A1 : (qnw * qh <= Pw * qh)%Q) by (apply Qmult_le_compat_r; lra).
  assert (A2 : (Pw * qh <= S * qw * ((1 + (1 # 9007199254740992)) * (1 + (1 # 9007199254740992))) * qh)%Q)
    by (apply Qmult_le_compat_r; lra).
  assert (A3 : (S * qw * ((1 - (1 # 9007199254740992)) * (1 - (1 # 9007199254740992))) * qh <= Pw * qh)%Q)
    by (apply Qmult_le_compat_r; lra).
  assert (A4 : ((Pw - 1) * qh <= qnw * qh)%Q) by (apply Qmult_le_compat_r; lra).
  assert (B1 : (qnh * qw <= Ph * qw)%Q) by (apply Qmult_le_compat_r; lra).
  assert (B2 : (Ph * qw <= S * qh * ((1 + (1 # 9007199254740992)) * (1 + (1 # 9007199254740992))) * qw)%Q)
    by (apply Qmult_le_compat_r; lra).
  assert (B3 : (S * qh * ((1 - (1 # 9007199254740992)) * (1 - (1 # 9007199254740992))) * qw <= Ph * qw)%Q)
    by (apply Qmult_le_compat_r; lra).
  assert (B4 : ((Ph - 1) * qw <= qnh * qw)%Q) by (apply Qmult_le_compat_r; lra).
  assert (C1 : (S * qw * qh <= 1280 * (1 + (1 # 9007199254740992)) * qh)%Q)
    by (apply Qmult_le_compat_r; lra).
  assert (C0 : (0 <= S * qw * qh)%Q)
    by (apply Qmult_le_0_compat; [apply Qmult_le_0_compat |]; lra).
  split.
  - apply Z.lt_succ_r, Zlt_of_Qlt. unfold Z.succ.
    unfold Z.sub. rewrite ?inject_Z_plus, ?inject_Z_opp, ?inject_Z_mult.
    fold qw qh qnw qnh. change (inject_Z 1) with 1%Q.
    assert (S1 : (Pw * qh - qh < qnw * qh)%Q).
    { setoid_replace (Pw * qh - qh)%Q with ((Pw - 1) * qh)%Q by ring.
      apply Qmult_lt_compat_r; lra. }
    lra.
  - apply Z.lt_succ_r, Zlt_of_Qlt. unfold Z.succ.
    unfold Z.sub. rewrite ?inject_Z_plus, ?inject_Z_opp, ?inject_Z_mult.
    fold qw qh qnw qnh. change (inject_Z 1) with 1%Q.
    assert (S1 : (Ph * qw - qw < qnh * qw)%Q).
    { setoid_replace (Ph * qw - qw)%Q with ((Ph - 1) * qw)%Q by ring.
      apply Qmult_lt_compat_r; lra. }
    lra.
Qed.

(* ===================================================================== *)
(** * The float model against binary64

    On the sizes the examples below use, every float operation of [resize]
    gives the value [SpecFloat]'s binary64 division and multiplication give. *)

Example model_is_binary64_on_examples :
  Forall (fun p => Forall (fun s => model_ops (fst (snd p)) (snd (snd p)) (fst s) (snd s)
                                    = b64_ops (fst (snd p)) (snd (snd p)) (fst s) (snd s))
                     [(4000, 2000); (1, 10000); (10000, 15); (10000, 1);
                      (500, 500); (32665, 45605); (1920, 1080); (3, 7)])
         PLATFORM_SIZES.
Proof. repeat constructor. Qed.

Example one_pixel_short : 
  (new_width 1280 720 32665 45605, new_height 1280 720 32665 45605) = (515, 719).
Proof. vm_compute. reflexivity. Qed.

(* ===================================================================== *)
(** * Strings *)

Lemma lower_char_of_upper a :
  is_upper (N_of_ascii a) = true ->
  lower_char a = ascii_of_N (N_of_ascii a + 32).
Proof. unfold lower_char. intros ->. reflexivity. Qed.

Lemma lower_char_above_upper a b :
  is_upper (N_of_ascii a) = true ->
  N_of_ascii b = (N_of_ascii a + 32)%N ->
  lower_char b = ascii_of_N (N_of_ascii a + 32).
Proof.
  intros Ha Hb. unfold lower_char. rewrite Hb.
  assert (N : is_upper (N_of_ascii a + 32) = false).
  { unfold is_upper in *. set (n := N_of_ascii a) in *.
    destruct (N.leb_spec 65 n), (N.leb_spec n 90), (N.leb_spec 192 n),
      (N.leb_spec n 222); cbn in Ha; try discriminate;
      destruct (N.leb_spec 65 (n + 32)), (N.leb_spec (n + 32) 90),
        (N.leb_spec 192 (n + 32)), (N.leb_spec (n + 32) 222);
      cbn; try reflexivity; lia. }
  rewrite N, <- Hb. symmetry. apply ascii_N_embedding.
Qed.

Lemma same_letter_lower a b :
  same_letter a b = true -> lower_char a = lower_char b.
Proof.
  unfold same_letter. intros H.
  apply orb_prop in H as [H | H]; [apply orb_prop in H as [H | H] |].
  - apply N.eqb_eq in H.
    rewrite <- (ascii_N_embedding a), H, ascii_N_embedding. reflexivity.
  - apply andb_prop in H as [U E]. apply N.eqb_eq in E.
    rewrite (lower_char_of_upper a U), (lower_char_above_upper a b U E). reflexivity.
  - apply andb_prop in H as [U E]. apply N.eqb_eq in E.
    rewrite (lower_char_of_upper b U), (lower_char_above_upper b a U E). reflexivity.
Qed.

Lemma eq_ignore_case_lower s : forall t,
  eq_ignore_case s t = true -> lower s = lower t.
Proof.
  induction s as [| a s IH]; intros [| b t]; cbn; try discriminate; [reflexivity |].
  intros H. apply andb_prop in H as [Hc Hs].
  rewrite (same_letter_lower _ _ Hc), (IH t Hs). reflexivity.
Qed.



(* ===================================================================== *)
(** * [load_image] and [resize], step by step *)

Lemma lib_call_result {A} (c : call) (r : lib_exn + A) log :
  lib_call c r log =
  (match r with inl e => inl (LibraryError e) | inr a => inr a end, log ++ [c]).
Proof. unfold lib_call. destruct r; reflexivity. Qed.

(** Whatever [load_image] raises was raised by a library. *)
Lemma load_image_error E url log e log1 :
  load_image E url log = (inl e, log1) -> exists le, e = LibraryError le.
Proof.
  unfold load_image, bind, raise_for_status, raise, ret.
  destruct (startswith (lower url) "http://" || startswith (lower url) "https://").
  - rewrite lib_call_result. destruct (requests_get E url) as [le | r].
    + intros [= <- _]. eauto.
    + destruct ((400 <=? status_code r) && (status_code r <? 600)).
      * intros [= <- _]. eauto.
      * rewrite lib_call_result.
        destruct (Image_open_bytes E (content r)) as [le | im]; intros [= <- _]; eauto.
  - rewrite lib_call_result.
    destruct (Image_open E url) as [le | im]; [intros [= <- _]; eauto | discriminate].
Qed.

Lemma resize_load_error E url platform log e log1 :
  load_image E url log = (inl e, log1) ->
  resize E url platform log = (inl e, log1).
Proof. intros H. unfold resize, bind. rewrite H. reflexivity. Qed.

(** [resize] on a source that loaded. *)
Lemma resize_loaded E url platform log im log1 :
  load_image E url log = (inr im, log1) ->
  resize E url platform log =
  match lookup (lower platform) PLATFORM_SIZES with
  | None => (inl invalid_platform, log1)
  | Some (tw, th) =>
      if (width im =? 0) || (height im =? 0) then (inl ZeroDivisionError, log1)
      else
        let nw := new_width tw th (width im) (height im) in
        let nh := new_height tw th (width im) (height im) in
        (if (nw <? 1) || (nh <? 1) then inl empty_size
         else inr (paste (Image_new RGB (tw, th) white)
                     (mkImage (im_mode im) nw nh (lanczos E im (nw, nh)))
                     (offset tw th nw nh)),
         log1 ++ [Image_resize_call (nw, nh)])
  end.
Proof.
  intros H. unfold resize, bind at 1. rewrite H.
  destruct (lookup (lower platform) PLATFORM_SIZES) as [[tw th] |]; [| reflexivity].
  unfold size, truediv, bind, raise, ret.
  destruct (width im =? 0); [reflexivity |].
  destruct (height im =? 0); [reflexivity |]. cbn [orb].
  unfold Image_resize. rewrite lib_call_result. cbn [fst snd].
  fold (scale tw th (width im) (height im)).
  fold (new_width tw th (width im) (height im)).
  fold (new_height tw th (width im) (height im)).
  unfold empty_size, offset.
  destruct ((new_width tw th (width im) (height im) <? 1)
            || (new_height tw th (width im) (height im) <? 1)); reflexivity.
Qed.


(** A non-degenerate fit returns a canvas of the target size. *)
Lemma resize_returns_target_size E url platform log im log1 tw th :
  load_image E url log = (inr im, log1) ->
  lookup (lower platform) PLATFORM_SIZES = Some (tw, th) ->
  0 < width im -> 0 < height im ->
  1 <= new_width tw th (width im) (height im) ->
  1 <= new_height tw th (width im) (height im) ->
  exists out,
    resize E url platform log =
      (inr out, log1 ++ [Image_resize_call (new_width tw th (width im) (height im),
                                            new_height tw th (width im) (height im))])
    /\ size out = (tw, th).
Proof.
  intros Hl Hp Hw Hh Hnw Hnh. rewrite (resize_loaded _ _ _ _ _ _ Hl), Hp.
  destruct (Z.eqb_spec (width im) 0); [lia |].
  destruct (Z.eqb_spec (height im) 0); [lia |]. cbn [orb]. cbv zeta.
  destruct (Z.ltb_spec (new_width tw th (width im) (height im)) 1); [lia |].
  destruct (Z.ltb_spec (new_height tw th (width im) (height im)) 1); [lia |].
  cbn [orb]. eexists. split; reflexivity.
Qed.

(** Any image [resize] returns has the target size. *)
Lemma resize_output_size E url platform log out log2 :
  resize E url platform log = (inr out, log2) ->
  exists tw th, lookup (lower platform) PLATFORM_SIZES = Some (tw, th)
                /\ size out = (tw, th).
Proof.
  intros H. destruct (load_image E url log) as [[e | im] log1] eqn:Hl.
  - rewrite (resize_load_error _ _ _ _ _ _ Hl) in H. discriminate.
  - rewrite (resize_loaded _ _ _ _ _ _ Hl) in H.
    destruct (lookup (lower platform) PLATFORM_SIZES) as [[tw th] |]; [| discriminate].
    exists tw, th. split; [reflexivity |].
    destruct ((width im =? 0) || (height im =? 0)); [discriminate |].
    cbv zeta in H.
    destruct ((new_width tw th (width im) (height im) <? 1)
              || (new_height tw th (width im) (height im) <? 1)); [discriminate |].
    injection H as <- _. reflexivity.
Qed.

(* ===================================================================== *)
(** * Claims *)

(** C1 (the code departs from it).  The claim: for every valid profile and
    every source of positive width and height, [resize] returns an image of
    exactly the target size.  On a 1 x 10000 source and the profile
    [youtube] the scaled width truncates to 0, Pillow refuses the resize to
    (0, 720), and [resize] raises instead of returning an image. *)
Theorem resize_raises_on_degenerate_source E url log im log1 :
  load_image E url log = (inr im, log1) ->
  size im = (1, 10000) ->
  resize E url "youtube" log
  = (inl empty_size, log1 ++ [Image_resize_call (0, 720)]).
Proof.
  intros Hl Hs. unfold size in Hs. injection Hs as Hw Hh.
  rewrite (resize_loaded _ _ _ _ _ _ Hl), Hw, Hh.
  vm_compute. reflexivity.
Qed.

Lemma resize_raises_on_degenerate_source_witness :
  resize studio "tall.png" "youtube" []
  = (inl empty_size, [Image_open_call "tall.png"] ++ [Image_resize_call (0, 720)]).
Proof.
  apply (resize_raises_on_degenerate_source studio "tall.png" []
           (mkImage RGB 1 10000 (fun _ _ => (10, 20, 30)))); reflexivity.
Defined.

(** C2.  For every valid profile and every source of positive width and
    height, [resize] asks for a resample at the size
    [(new_width, new_height)], where [scale] is the smaller of the two float
    quotients, each scaled dimension is the floor of the float product of
    the source dimension and [scale], and neither exceeds its target. *)
Theorem scaled_size_within_target E url platform log im log1 tw th :
  load_image E url log = (inr im, log1) ->
  lookup (lower platform) PLATFORM_SIZES = Some (tw, th) ->
  0 < width im -> 0 < height im ->
  let w := width im in
  let h := height im in
  let s := fmin (round_ratio tw w) (round_ratio th h) in
  let nw := Qfloor (value (fmul (float_of_int w) s)) in
  let nh := Qfloor (value (fmul (float_of_int h) s)) in
  snd (resize E url platform log) = log1 ++ [Image_resize_call (nw, nh)]
  /\ (value s <= value (round_ratio tw w))%Q
  /\ (value s <= value (round_ratio th h))%Q
  /\ 0 <= nw <= tw
  /\ 0 <= nh <= th.
Proof.
  intros Hl Hp Hw Hh w h s nw nh.
  destruct (PLATFORM_SIZES_bounds _ _ _ Hp) as [Btw Bth].
  assert (Ew : nw = new_width tw th w h) by (symmetry; apply int_of_float_floor).
  assert (Eh : nh = new_height tw th w h) by (symmetry; apply int_of_float_floor).
  split; [| split; [apply value_fmin_le_l | split; [apply value_fmin_le_r |]]].
  - rewrite (resize_loaded _ _ _ _ _ _ Hl), Hp.
    destruct (Z.eqb_spec (width im) 0); [lia |].
    destruct (Z.eqb_spec (height im) 0); [lia |].
    cbn [orb snd]. cbv zeta. fold w h. rewrite <- Ew, <- Eh. reflexivity.
  - rewrite Ew, Eh. split.
    + apply new_width_fits; lia.
    + apply new_height_fits; lia.
Qed.

Lemma scaled_size_within_target_witness :
  snd (resize studio "wide.png" "YouTube" [])
  = [Image_open_call "wide.png"] ++
    [Image_resize_call
       (Qfloor (value (fmul (float_of_int 4000)
                         (fmin (round_ratio 1280 4000) (round_ratio 720 2000)))),
        Qfloor (value (fmul (float_of_int 2000)
                         (fmin (round_ratio 1280 4000) (round_ratio 720 2000)))))].
Proof.
  apply (scaled_size_within_target studio "wide.png" "YouTube" []
           (mkImage RGB 4000 2000 (fun _ _ => (10, 20, 30)))
           [Image_open_call "wide.png"] 1280 720);
    [reflexivity | reflexivity | reflexivity | reflexivity].
Defined.

(** C3 as stated fails: a source that cannot be opened raises the library's
    error before the platform name is looked at, so [resize] on it with the
    unknown name [tiktok] does not raise the [ValueError]. *)
Lemma unknown_platform_on_unloadable_source :
  lookup (lower "tiktok") PLATFORM_SIZES = None
  /\ resize studio "missing.png" "tiktok" []
     = (inl (LibraryError ("FileNotFoundError", "missing.png")),
        [Image_open_call "missing.png"])
  /\ forall msg, fst (resize studio "missing.png" "tiktok" []) <> inl (ValueError msg).
Proof.
  split; [reflexivity | split; [reflexivity |]].
  intros msg. vm_compute. discriminate.
Qed.

(** C3, amended.  For every platform name whose lowercase form is not a key
    of [PLATFORM_SIZES]: [resize] never returns an image, and on every source
    that loads it raises [ValueError("Plataforma no valida.")] right after
    the load, with no further library call. *)
Theorem resize_unknown_platform E url platform log :
  lookup (lower platform) PLATFORM_SIZES = None ->
  (forall im log1, load_image E url log = (inr im, log1) ->
                   resize E url platform log = (inl invalid_platform, log1))
  /\ (forall out log2, resize E url platform log <> (inr out, log2)).
Proof.
  intros Hp. split.
  - intros im log1 Hl. rewrite (resize_loaded _ _ _ _ _ _ Hl), Hp. reflexivity.
  - intros out log2 H. apply resize_output_size in H as (tw & th & H & _).
    congruence.
Qed.

Lemma resize_unknown_platform_witness :
  resize studio "wide.png" "TikTok" []
  = (inl invalid_platform, [Image_open_call "wide.png"]).
Proof.
  apply (proj1 (resize_unknown_platform studio "wide.png" "TikTok" [] eq_refl)
           (mkImage RGB 4000 2000 (fun _ _ => (10, 20, 30)))).
  reflexivity.
Defined.

(** C4.  For every valid profile and every source of positive width and
    height: whenever the scaled width and height are at least one pixel,
    [resize] returns the white canvas with the resampled image pasted at
    [(offset_x, offset_y)], the floors of half the leftover width and
    height, and it returns nothing else; the left margin is not negative and
    the right margin is the left one or one pixel more, and likewise top and
    bottom. *)
Theorem paste_offset_centres E url platform log im log1 tw th :
  load_image E url log = (inr im, log1) ->
  lookup (lower platform) PLATFORM_SIZES = Some (tw, th) ->
  0 < width im -> 0 < height im ->
  let nw := new_width tw th (width im) (height im) in
  let nh := new_height tw th (width im) (height im) in
  let offset_x := fst (offset tw th nw nh) in
  let offset_y := snd (offset tw th nw nh) in
  let resized := mkImage (im_mode im) nw nh (lanczos E im (nw, nh)) in
  (1 <= nw -> 1 <= nh ->
   resize E url platform log
   = (inr (paste (Image_new RGB (tw, th) white) resized (offset_x, offset_y)),
      log1 ++ [Image_resize_call (nw, nh)]))
  /\ (forall out log2,
        resize E url platform log = (inr out, log2) ->
        1 <= nw /\ 1 <= nh
        /\ out = paste (Image_new RGB (tw, th) white) resized (offset_x, offset_y))
  /\ offset_x = Qfloor (inject_Z (tw - nw) / 2)
  /\ offset_y = Qfloor (inject_Z (th - nh) / 2)
  /\ (0 <= offset_x /\ offset_x <= tw - nw - offset_x <= offset_x + 1)
  /\ (0 <= offset_y /\ offset_y <= th - nh - offset_y <= offset_y + 1).
Proof.
  intros Hl Hp Hw Hh nw nh ox oy resized.
  destruct (PLATFORM_SIZES_bounds _ _ _ Hp) as [Btw Bth].
  pose proof (new_width_fits tw th (width im) (height im) Hw Hh Btw ltac:(lia)) as Fw.
  pose proof (new_height_fits tw th (width im) (height im) Hw Hh ltac:(lia) Bth) as Fh.
  fold nw in Fw. fold nh in Fh.
  assert (Fl : forall z, Qfloor (inject_Z z / 2) = z / 2).
  { intros z. unfold Qfloor, Qdiv, Qmult, Qinv, inject_Z; cbn.
    rewrite Z.mul_1_r. reflexivity. }
  assert (R : resize E url platform log
              = (if (nw <? 1) || (nh <? 1) then inl empty_size
                 else inr (paste (Image_new RGB (tw, th) white) resized (ox, oy)),
                 log1 ++ [Image_resize_call (nw, nh)])).
  { rewrite (resize_loaded _ _ _ _ _ _ Hl), Hp.
    destruct (Z.eqb_spec (width im) 0); [lia |].
    destruct (Z.eqb_spec (height im) 0); [lia |]. reflexivity. }
  split; [| split; [| split; [| split; [| split]]]].
  - intros Hnw Hnh. rewrite R.
    destruct (Z.ltb_spec nw 1); [lia |].
    destruct (Z.ltb_spec nh 1); [lia |]. reflexivity.
  - intros out log2 H. rewrite R in H.
    destruct (Z.ltb_spec nw 1); [discriminate |].
    destruct (Z.ltb_spec nh 1); [discriminate |].
    cbn [orb] in H. injection H as <- _. auto.
  - rewrite Fl. reflexivity.
  - rewrite Fl. reflexivity.
  - unfold ox, offset; cbn [fst]. pose proof (Z.div_mod (tw - nw) 2 ltac:(lia)).
    pose proof (Z.mod_pos_bound (tw - nw) 2 ltac:(lia)). lia.
  - unfold oy, offset; cbn [snd]. pose proof (Z.div_mod (th - nh) 2 ltac:(lia)).
    pose proof (Z.mod_pos_bound (th - nh) 2 ltac:(lia)). lia.
Qed.

Lemma paste_offset_centres_witness :
  let wide := mkImage RGB 4000 2000 (fun _ _ => (10, 20, 30)) in
  let nw := new_width 1280 720 4000 2000 in
  let nh := new_height 1280 720 4000 2000 in
  resize studio "wide.png" "youtube" []
  = (inr (paste (Image_new RGB (1280, 720) white)
            (mkImage RGB nw nh (lanczos studio wide (nw, nh)))
            (fst (offset 1280 720 nw nh), snd (offset 1280 720 nw nh))),
     [Image_open_call "wide.png"] ++ [Image_resize_call (nw, nh)]).
Proof.
  intros wide nw nh.
  apply (paste_offset_centres studio "wide.png" "youtube" [] wide
           [Image_open_call "wide.png"] 1280 720
           eq_refl eq_refl eq_refl eq_refl);
    vm_compute; discriminate.
Defined.

(** C5 as stated fails: a 10000 x 15 source on [youtube] is scaled to
    1280 x 1, whose ratio 1280 is more than 600 away from the source's
    666.67; and a 10000 x 1 source is scaled to height 0, where the scaled
    ratio does not exist. *)
Lemma aspect_ratio_far_from_source :
  lookup "youtube" PLATFORM_SIZES = Some (1280, 720)
  /\ (new_width 1280 720 10000 15, new_height 1280 720 10000 15) = (1280, 1)
  /\ (600 < aspect_ratio_error 1280 720 10000 15)%Q
  /\ new_height 1280 720 10000 1 = 0.
Proof. repeat split; vm_compute; reflexivity. Qed.

(** C5, amended.  For every valid profile and every source of positive
    width and height below 2^31, both axes are scaled by the same factor and
    truncated: the cross products of scaled and source sizes differ by at
    most one source dimension; when the scaled height is positive the two
    ratios differ by at most [max(w, h) / (scaled_height * h)]; and the
    pasted box lies inside the canvas, so nothing is cropped. *)
Theorem aspect_ratio_up_to_truncation name tw th w h :
  lookup name PLATFORM_SIZES = Some (tw, th) ->
  0 < w < 2 ^ 31 -> 0 < h < 2 ^ 31 ->
  let nw := new_width tw th w h in
  let nh := new_height tw th w h in
  - h <= nw * h - nh * w <= w
  /\ (0 < nh ->
      (aspect_ratio_error tw th w h
       <= inject_Z (Z.max w h) / (inject_Z nh * inject_Z h))%Q)
  /\ (0 <= fst (offset tw th nw nh) /\ fst (offset tw th nw nh) + nw <= tw)
  /\ (0 <= snd (offset tw th nw nh) /\ snd (offset tw th nw nh) + nh <= th).
Proof.
  intros Hp Hw Hh nw nh.
  destruct (PLATFORM_SIZES_bounds _ _ _ Hp) as [Btw Bth].
  pose proof (scaled_cross_products tw th w h Hw Hh Btw Bth) as X.
  pose proof (new_width_fits tw th w h ltac:(lia) ltac:(lia) Btw ltac:(lia)) as Fw.
  pose proof (new_height_fits tw th w h ltac:(lia) ltac:(lia) ltac:(lia) Bth) as Fh.
  fold nw nh in X. fold nw in Fw. fold nh in Fh.
  split; [exact X | split; [| split]].
  - intros Pnh. unfold aspect_ratio_error. fold nw nh.
    pose proof (inject_Z_pos nh Pnh) as Qnh.
    pose proof (inject_Z_pos h ltac:(lia)) as Qh.
    assert (Pd : (0 < inject_Z nh * inject_Z h)%Q) by (apply Qmult_lt_0_compat; assumption).
    assert (Pi : (0 <= / (inject_Z nh * inject_Z h))%Q)
      by (apply Qlt_le_weak, Qinv_lt_0_compat, Pd).
    assert (E : (inject_Z nw / inject_Z nh - inject_Z w / inject_Z h
                 == inject_Z (nw * h - nh * w) * / (inject_Z nh * inject_Z h))%Q).
    { unfold Z.sub. rewrite inject_Z_plus, inject_Z_opp, !inject_Z_mult.
      field. split; intros Z0; rewrite Z0 in *; [apply (Qlt_irrefl _ Qh) | apply (Qlt_irrefl _ Qnh)]. }
    rewrite E. apply Qabs_Qle_condition. unfold Qdiv. split.
    + setoid_replace (- (inject_Z (Z.max w h) * / (inject_Z nh * inject_Z h)))%Q
        with (inject_Z (- Z.max w h) * / (inject_Z nh * inject_Z h))%Q
        by (rewrite inject_Z_opp; ring).
      apply Qmult_le_compat_r; [| exact Pi]. rewrite <- Zle_Qle. lia.
    + apply Qmult_le_compat_r; [| exact Pi]. rewrite <- Zle_Qle. lia.
  - unfold offset; cbn [fst]. pose proof (Z.div_mod (tw - nw) 2 ltac:(lia)).
    pose proof (Z.mod_pos_bound (tw - nw) 2 ltac:(lia)). lia.
  - unfold offset; cbn [snd]. pose proof (Z.div_mod (th - nh) 2 ltac:(lia)).
    pose proof (Z.mod_pos_bound (th - nh) 2 ltac:(lia)). lia.
Qed.

Lemma aspect_ratio_up_to_truncation_witness :
  let nw := new_width 1280 720 10000 15 in
  let nh := new_height 1280 720 10000 15 in
  - 15 <= nw * 15 - nh * 10000 <= 10000.
Proof.
  apply (aspect_ratio_up_to_truncation "youtube" 1280 720 10000 15);
    [reflexivity | split; reflexivity | split; reflexivity].
Defined.




(** C7.  A 4000 x 2000 source on [youtube]: the scale is the float 0.32, the
    smaller of 1280/4000 and 720/2000; the scaled size is 1280 x 640; the
    offsets are (0, 40); [resize] returns a 1280 x 720 canvas whose rows
    0..39 and 680..719 are white and whose rows between are the resampled
    image. *)
Theorem letterbox_4000x2000_youtube E url log im log1 :
  load_image E url log = (inr im, log1) ->
  size im = (4000, 2000) ->
  scale 1280 720 4000 2000 = round_ratio 32 100
  /\ flt (round_ratio 1280 4000) (round_ratio 720 2000) = true
  /\ (new_width 1280 720 4000 2000, new_height 1280 720 4000 2000) = (1280, 640)
  /\ offset 1280 720 1280 640 = (0, 40)
  /\ exists out,
       resize E url "youtube" log
       = (inr out, log1 ++ [Image_resize_call (1280, 640)])
       /\ size out = (1280, 720)
       /\ (forall x y, 0 <= x < 1280 -> 0 <= y < 40 \/ 680 <= y < 720 ->
                       getpixel out x y = (255, 255, 255))
       /\ (forall x y, 0 <= x < 1280 -> 40 <= y < 680 ->
                       getpixel out x y = lanczos E im (1280, 640) x (y - 40)).
Proof.
  intros Hl Hs. unfold size in Hs. injection Hs as Hw Hh.
  assert (Hnw : new_width 1280 720 4000 2000 = 1280) by (vm_compute; reflexivity).
  assert (Hnh : new_height 1280 720 4000 2000 = 640) by (vm_compute; reflexivity).
  split; [vm_compute; reflexivity |].
  split; [vm_compute; reflexivity |].
  split; [rewrite Hnw, Hnh; reflexivity |].
  split; [reflexivity |].
  rewrite (resize_loaded _ _ _ _ _ _ Hl), Hw, Hh.
  change (lookup (lower "youtube") PLATFORM_SIZES) with (Some (1280, 720)).
  cbv iota beta. change ((4000 =? 0) || (2000 =? 0)) with false. cbv iota zeta.
  rewrite Hnw, Hnh. change ((1280 <? 1) || (640 <? 1)) with false. cbv iota.
  eexists. split; [reflexivity |]. split; [reflexivity |].
  unfold paste, offset, Image_new; cbn [getpixel width height fst snd].
  change ((1280 - 1280) / 2) with 0. change ((720 - 640) / 2) with 40.
  split; intros x y Hx Hy.
  - destruct (Z.leb_spec 40 y); destruct (Z.ltb_spec y (40 + 640));
      rewrite ?andb_false_r; try reflexivity; lia.
  - destruct (Z.leb_spec 0 x); [| lia]. destruct (Z.ltb_spec x (0 + 1280)); [| lia].
    destruct (Z.leb_spec 40 y); [| lia]. destruct (Z.ltb_spec y (40 + 640)); [| lia].
    cbn [andb]. rewrite Z.sub_0_r. reflexivity.
Qed.

Lemma letterbox_4000x2000_youtube_witness :
  offset 1280 720 1280 640 = (0, 40)
  /\ exists out,
       resize studio "wide.png" "youtube" []
       = (inr out, [Image_open_call "wide.png"] ++ [Image_resize_call (1280, 640)])
       /\ size out = (1280, 720)
       /\ (forall x y, 0 <= x < 1280 -> 0 <= y < 40 \/ 680 <= y < 720 ->
                       getpixel out x y = (255, 255, 255))
       /\ (forall x y, 0 <= x < 1280 -> 40 <= y < 680 ->
                       getpixel out x y
                       = lanczos studio (mkImage RGB 4000 2000 (fun _ _ => (10, 20, 30)))
                           (1280, 640) x (y - 40)).
Proof.
  apply (letterbox_4000x2000_youtube studio "wide.png" []
           (mkImage RGB 4000 2000 (fun _ _ => (10, 20, 30)))
           [Image_open_call "wide.png"]); reflexivity.
Defined.

(** C8.  [resize] loads the source before it looks at the platform name:
    when the load raises, [resize] raises the same error with the same log,
    whatever the platform name; a [ValueError] of [resize] therefore implies
    the source loaded, and no error of the load is that [ValueError]. *)
Theorem resize_loads_before_validating E url platform log :
  (forall e log1, load_image E url log = (inl e, log1) ->
                  resize E url platform log = (inl e, log1)
                  /\ exists le, e = LibraryError le)
  /\ (forall msg log2, resize E url platform log = (inl (ValueError msg), log2) ->
                       msg = "Plataforma no valida."
                       /\ lookup (lower platform) PLATFORM_SIZES = None
                       /\ exists im, load_image E url log = (inr im, log2)).
Proof.
  split.
  - intros e log1 Hl. split; [apply resize_load_error, Hl |].
    apply (load_image_error _ _ _ _ _ Hl).
  - intros msg log2 H.
    destruct (load_image E url log) as [[e | im] log1] eqn:Hl.
    + rewrite (resize_load_error _ _ _ _ _ _ Hl) in H.
      destruct (load_image_error _ _ _ _ _ Hl) as [le ->]. discriminate.
    + rewrite (resize_loaded _ _ _ _ _ _ Hl) in H.
      destruct (lookup (lower platform) PLATFORM_SIZES) as [[tw th] |].
      * destruct ((width im =? 0) || (height im =? 0)); [discriminate |].
        cbv zeta in H.
        destruct ((new_width tw th (width im) (height im) <? 1)
                  || (new_height tw th (width im) (height im) <? 1)); discriminate.
      * injection H as <- <-. eauto.
Qed.

(** C9.  A 1 x 10000 source has positive width and height, and for every
    profile its scaled width truncates to 0 while the scaled height is the
    target height; [resize] then asks Pillow for a resample of width 0. *)
Theorem degenerate_scaled_width :
  (0 < 1 /\ 0 < 10000)
  /\ Forall (fun p => new_width (fst (snd p)) (snd (snd p)) 1 10000 = 0
                      /\ new_height (fst (snd p)) (snd (snd p)) 1 10000 = snd (snd p))
       PLATFORM_SIZES
  /\ forall E url platform log im log1 tw th,
       load_image E url log = (inr im, log1) ->
       size im = (1, 10000) ->
       lookup (lower platform) PLATFORM_SIZES = Some (tw, th) ->
       snd (resize E url platform log) = log1 ++ [Image_resize_call (0, th)].
Proof.
  split; [lia |]. split.
  - repeat constructor.
  - intros E url platform log im log1 tw th Hl Hs Hp.
    unfold size in Hs. injection Hs as Hw Hh.
    rewrite (resize_loaded _ _ _ _ _ _ Hl), Hp, Hw, Hh.
    apply PLATFORM_SIZES_cases in Hp.
    destruct Hp as [E0 | [E0 | [E0 | E0]]]; injection E0 as -> ->;
      vm_compute; reflexivity.
Qed.

(** C10.  [sketch_person] raises its [ValueError] exactly when [persona] is
    false, and then before any library call: the log is unchanged, the image
    is not opened.  With [persona] true the first thing it does is open the
    image, and whatever the image holds that error is never raised. *)
Theorem sketch_person_raises_iff_not_persona E image output persona log :
  (fst (sketch_person E image output persona log) = inl no_person
   <-> persona = false)
  /\ (persona = false ->
      sketch_person E image output persona log = (inl no_person, log))
  /\ (persona = true ->
      (forall msg, fst (sketch_person E image output persona log)
                   <> inl (ValueError msg))
      /\ exists rest, snd (sketch_person E image output persona log)
                      = log ++ Image_open_call image :: rest).
Proof.
  assert (T : persona = true ->
              (forall msg, fst (sketch_person E image output persona log)
                           <> inl (ValueError msg))
              /\ exists rest, snd (sketch_person E image output persona log)
                              = log ++ Image_open_call image :: rest).
  { intros ->. unfold sketch_person, bind, ret; cbn [negb].
    rewrite lib_call_result.
    destruct (Image_open E image) as [le | opened].
    - split; [intros msg; discriminate | exists []; reflexivity].
    - rewrite lib_call_result.
      destruct (save E _ output) as [le | []]; cbn [fst snd];
        (split; [intros msg; discriminate |]);
        exists [Image_save_call output]; rewrite <- app_assoc; reflexivity. }
  split; [| split; [| exact T]].
  - split.
    + destruct persona; [| reflexivity].
      intros H. destruct (T eq_refl) as [N _]. exfalso. apply (N _ H).
    + intros ->. reflexivity.
  - intros ->. reflexivity.
Qed.

(* ===================================================================== *)
(** * Further properties of [resize] *)

(** The scaled size of an axis from below, when the scale times the source
    dimension is at least [c]. *)
Lemma scaled_dimension_lower tw th w h d (c : Q) :
  0 < w -> 0 < h -> 0 < tw -> 0 < th -> 0 < d ->
  (0 <= c <= 2000)%Q ->
  (c * (1 - u) <= value (scale tw th w h) * inject_Z d)%Q ->
  (c - 1 < inject_Z (int_of_float (fmul (float_of_int d) (scale tw th w h))) + (1 # 1000))%Q.
Proof.
  intros Hw Hh Htw Hth Hd Hc Hs.
  pose proof (product_bounds tw th w h Hw Hh Htw Hth d Hd) as [Pl _]; cbv zeta in Pl.
  pose proof (int_of_float_bounds (fmul (float_of_int d) (scale tw th w h))) as [_ Fh].
  set (P := value (fmul (float_of_int d) (scale tw th w h))) in *.
  set (n := inject_Z (int_of_float (fmul (float_of_int d) (scale tw th w h)))) in *.
  set (X := (value (scale tw th w h) * inject_Z d)%Q) in *.
  unfold u in *. change (1 # 2 ^ 53)%Q with (1 # 9007199254740992)%Q in *.
  lra.
Qed.

Lemma Zle_of_Qlt_milli a b :
  (inject_Z a - 1 < inject_Z b + (1 # 1000))%Q -> a - 1 <= b.
Proof.
  intros H. destruct (Z_lt_le_dec b (a - 1)) as [L | L]; [| exact L].
  exfalso. assert (L' : b + 1 <= a + - (1)) by lia.
  rewrite Zle_Qle, !inject_Z_plus, inject_Z_opp in L'.
  change (inject_Z 1) with 1%Q in L'. lra.
Qed.

(** When the width quotient is the scale, the scaled width is the target
    width or one pixel less. *)
Lemma new_width_when_width_binds tw th w h :
  0 < w -> 0 < h -> 0 < tw <= 1280 -> 0 < th ->
  scale tw th w h = round_ratio tw w ->
  tw - 1 <= new_width tw th w h.
Proof.
  intros Hw Hh Htw Hth Hs. unfold new_width.
  pose proof (round_ratio_bounds tw w ltac:(lia) Hw) as [Lo _].
  rewrite <- Hs in Lo.
  assert (T : (0 <= inject_Z tw <= 2000)%Q).
  { split; [apply inject_Z_nonneg; lia |].
    change 2000%Q with (inject_Z 2000). rewrite <- Zle_Qle. lia. }
  pose proof (scaled_dimension_lower tw th w h w (inject_Z tw)
                Hw Hh ltac:(lia) Hth Hw T Lo) as B.
  apply Zle_of_Qlt_milli in B. exact B.
Qed.

Lemma new_height_when_height_binds tw th w h :
  0 < w -> 0 < h -> 0 < tw -> 0 < th <= 1080 ->
  scale tw th w h = round_ratio th h ->
  th - 1 <= new_height tw th w h.
Proof.
  intros Hw Hh Htw Hth Hs. unfold new_height.
  pose proof (round_ratio_bounds th h ltac:(lia) Hh) as [Lo _].
  rewrite <- Hs in Lo.
  assert (T : (0 <= inject_Z th <= 2000)%Q).
  { split; [apply inject_Z_nonneg; lia |].
    change 2000%Q with (inject_Z 2000). rewrite <- Zle_Qle. lia. }
  pose proof (scaled_dimension_lower tw th w h h (inject_Z th)
                Hw Hh Htw ltac:(lia) Hh T Lo) as B.
  apply Zle_of_Qlt_milli in B. exact B.
Qed.

(** X2.  The letterbox touches the canvas on one axis: for every profile and
    every source of positive width and height, the scaled width is the target
    width or one pixel less and the horizontal offset is 0, or the same holds
    for the height and the vertical offset. *)
Theorem letterbox_touches_one_axis name tw th w h :
  lookup name PLATFORM_SIZES = Some (tw, th) ->
  0 < w -> 0 < h ->
  let nw := new_width tw th w h in
  let nh := new_height tw th w h in
  (tw - 1 <= nw <= tw /\ fst (offset tw th nw nh) = 0)
  \/ (th - 1 <= nh <= th /\ snd (offset tw th nw nh) = 0).
Proof.
  intros Hp Hw Hh nw nh.
  destruct (PLATFORM_SIZES_bounds _ _ _ Hp) as [Btw Bth].
  pose proof (new_width_fits tw th w h Hw Hh Btw ltac:(lia)) as Fw.
  pose proof (new_height_fits tw th w h Hw Hh ltac:(lia) Bth) as Fh.
  fold nw in Fw. fold nh in Fh.
  destruct (fmin_cases (round_ratio tw w) (round_ratio th h)) as [E | E].
  - left. pose proof (new_width_when_width_binds tw th w h Hw Hh Btw ltac:(lia) E) as L.
    fold nw in L. split; [lia |]. unfold offset; cbn [fst].
    apply Z.div_small. lia.
  - right. pose proof (new_height_when_height_binds tw th w h Hw Hh ltac:(lia) Bth E) as L.
    fold nh in L. split; [lia |]. unfold offset; cbn [snd].
    apply Z.div_small. lia.
Qed.

Lemma letterbox_touches_one_axis_witness :
  let nw := new_width 1200 630 1920 1080 in
  let nh := new_height 1200 630 1920 1080 in
  (1200 - 1 <= nw <= 1200 /\ fst (offset 1200 630 nw nh) = 0)
  \/ (630 - 1 <= nh <= 630 /\ snd (offset 1200 630 nw nh) = 0).
Proof.
  apply (letterbox_touches_one_axis "facebook" 1200 630 1920 1080);
    reflexivity.
Defined.

(** A source no more than 600 times as wide as high, or as high as wide,
    keeps at least one pixel on each axis. *)
Lemma scaled_size_positive name tw th w h :
  lookup name PLATFORM_SIZES = Some (tw, th) ->
  0 < w -> 0 < h -> w <= 600 * h -> h <= 600 * w ->
  1 <= new_width tw th w h /\ 1 <= new_height tw th w h.
Proof.
  intros Hp Hw Hh Rw Rh.
  destruct (PLATFORM_SIZES_bounds _ _ _ Hp) as [Btw Bth].
  assert (Ltw : 1080 <= tw /\ 630 <= th).
  { apply PLATFORM_SIZES_cases in Hp.
    destruct Hp as [E | [E | [E | E]]]; injection E as -> ->; lia. }
  pose proof (scale_nonneg tw th w h Hw Hh ltac:(lia) ltac:(lia)) as Sn.
  pose proof (inject_Z_pos w Hw) as Qw. pose proof (inject_Z_pos h Hh) as Qh.
  assert (Rw' : (inject_Z w <= 600 * inject_Z h)%Q).
  { change 600%Q with (inject_Z 600). rewrite <- inject_Z_mult, <- Zle_Qle. lia. }
  assert (Rh' : (inject_Z h <= 600 * inject_Z w)%Q).
  { change 600%Q with (inject_Z 600). rewrite <- inject_Z_mult, <- Zle_Qle. lia. }
  assert (Tw : (1080 <= inject_Z tw)%Q).
  { change 1080%Q with (inject_Z 1080). rewrite <- Zle_Qle. lia. }
  assert (Th : (630 <= inject_Z th)%Q).
  { change 630%Q with (inject_Z 630). rewrite <- Zle_Qle. lia. }
  destruct (fmin_cases (round_ratio tw w) (round_ratio th h)) as [E | E].
  - split.
    + pose proof (new_width_when_width_binds tw th w h Hw Hh Btw ltac:(lia) E). lia.
    + pose proof (round_ratio_bounds tw w ltac:(lia) Hw) as [Lo _].
      fold (scale tw th w h) in E. rewrite <- E in Lo.
      set (S := value (scale tw th w h)) in *.
      assert (M : (S * inject_Z w <= S * (600 * inject_Z h))%Q).
      { rewrite !(Qmult_comm S). apply Qmult_le_compat_r; assumption. }
      assert (C : ((9 # 5) * (1 - u) <= S * inject_Z h)%Q).
      { unfold u in *. change (1 # 2 ^ 53)%Q with (1 # 9007199254740992)%Q in *. lra. }
      pose proof (scaled_dimension_lower tw th w h h (9 # 5)
                    Hw Hh ltac:(lia) ltac:(lia) Hh ltac:(lra) C) as B.
      fold (new_height tw th w h) in B.
      apply Z.lt_succ_r, Zlt_of_Qlt. unfold Z.succ.
      rewrite inject_Z_plus. change (inject_Z 1) with 1%Q. lra.
  - split.
    + pose proof (round_ratio_bounds th h ltac:(lia) Hh) as [Lo _].
      fold (scale tw th w h) in E. rewrite <- E in Lo.
      set (S := value (scale tw th w h)) in *.
      assert (M : (S * inject_Z h <= S * (600 * inject_Z w))%Q).
      { rewrite !(Qmult_comm S). apply Qmult_le_compat_r; assumption. }
      assert (C : ((21 # 20) * (1 - u) <= S * inject_Z w)%Q).
      { unfold u in *. change (1 # 2 ^ 53)%Q with (1 # 9007199254740992)%Q in *. lra. }
      pose proof (scaled_dimension_lower tw th w h w (21 # 20)
                    Hw Hh ltac:(lia) ltac:(lia) Hw ltac:(lra) C) as B.
      fold (new_width tw th w h) in B.
      apply Z.lt_succ_r, Zlt_of_Qlt. unfold Z.succ.
      rewrite inject_Z_plus. change (inject_Z 1) with 1%Q. lra.
    + pose proof (new_height_when_height_binds tw th w h Hw Hh ltac:(lia) Bth E). lia.
Qed.

(** X1.  A source that loads with width 0 or height 0 makes [resize] raise
    [ZeroDivisionError] when it divides the target size by the source size:
    after the load, before any resample, and only for a valid platform name. *)
Theorem resize_zero_dimension_source E url platform log im log1 tw th :
  load_image E url log = (inr im, log1) ->
  lookup (lower platform) PLATFORM_SIZES = Some (tw, th) ->
  width im = 0 \/ height im = 0 ->
  resize E url platform log = (inl ZeroDivisionError, log1).
Proof.
  intros Hl Hp Hz. rewrite (resize_loaded _ _ _ _ _ _ Hl), Hp.
  destruct Hz as [-> | ->]; [reflexivity |].
  rewrite orb_true_r. reflexivity.
Qed.

Lemma resize_zero_dimension_source_witness :
  resize vault "empty.png" "Twitter" []
  = (inl ZeroDivisionError, [Image_open_call "empty.png"]).
Proof.
  apply (resize_zero_dimension_source vault "empty.png" "Twitter" []
           (mkImage RGB 0 10 (fun _ _ => (1, 2, 3)))
           [Image_open_call "empty.png"] 1200 675);
    [reflexivity | reflexivity | left; reflexivity].
Defined.

(** X3.  What [resize] returns, pixel by pixel: an RGB image of the target
    size in which every pixel of the resampled image appears, shifted by the
    offsets and inside the canvas (nothing is cropped), and every other pixel
    is white. *)
Theorem resize_output_pixels E url platform log im log1 tw th out log2 :
  load_image E url log = (inr im, log1) ->
  lookup (lower platform) PLATFORM_SIZES = Some (tw, th) ->
  0 < width im -> 0 < height im ->
  resize E url platform log = (inr out, log2) ->
  let nw := new_width tw th (width im) (height im) in
  let nh := new_height tw th (width im) (height im) in
  let ox := fst (offset tw th nw nh) in
  let oy := snd (offset tw th nw nh) in
  size out = (tw, th)
  /\ im_mode out = RGB
  /\ (forall i j, 0 <= i < nw -> 0 <= j < nh ->
        0 <= ox + i < tw /\ 0 <= oy + j < th
        /\ getpixel out (ox + i) (oy + j) = lanczos E im (nw, nh) i j)
  /\ (forall x y, ~ (ox <= x < ox + nw /\ oy <= y < oy + nh) ->
        getpixel out x y = white).
Proof.
  intros Hl Hp Hw Hh Hr nw nh ox oy.
  destruct (PLATFORM_SIZES_bounds _ _ _ Hp) as [Btw Bth].
  pose proof (new_width_fits tw th (width im) (height im) Hw Hh Btw ltac:(lia)) as Fw.
  pose proof (new_height_fits tw th (width im) (height im) Hw Hh ltac:(lia) Bth) as Fh.
  fold nw in Fw. fold nh in Fh.
  assert (Ox : 0 <= ox /\ ox + nw <= tw).
  { unfold ox, offset; cbn [fst]. pose proof (Z.div_mod (tw - nw) 2 ltac:(lia)).
    pose proof (Z.mod_pos_bound (tw - nw) 2 ltac:(lia)). lia. }
  assert (Oy : 0 <= oy /\ oy + nh <= th).
  { unfold oy, offset; cbn [snd]. pose proof (Z.div_mod (th - nh) 2 ltac:(lia)).
    pose proof (Z.mod_pos_bound (th - nh) 2 ltac:(lia)). lia. }
  rewrite (resize_loaded _ _ _ _ _ _ Hl), Hp in Hr.
  destruct ((width im =? 0) || (height im =? 0)); [discriminate |].
  cbv zeta in Hr. fold nw nh in Hr.
  destruct ((nw <? 1) || (nh <? 1)); [discriminate |].
  injection Hr as <- _.
  unfold paste, offset in *; cbn [fst snd] in *.
  cbn [getpixel width height im_mode size Image_new fst snd].
  split; [reflexivity | split; [reflexivity | split]].
  - intros i j Hi Hj. split; [lia | split; [lia |]].
    fold ox oy.
    destruct (Z.leb_spec ox (ox + i)); [| lia].
    destruct (Z.ltb_spec (ox + i) (ox + nw)); [| lia].
    destruct (Z.leb_spec oy (oy + j)); [| lia].
    destruct (Z.ltb_spec (oy + j) (oy + nh)); [| lia].
    cbn [andb]. f_equal; lia.
  - intros x y Hout. fold ox oy.
    destruct (Z.leb_spec ox x); destruct (Z.ltb_spec x (ox + nw));
      destruct (Z.leb_spec oy y); destruct (Z.ltb_spec y (oy + nh));
      cbn [andb]; try reflexivity.
    exfalso. apply Hout. lia.
Qed.

Lemma resize_output_pixels_witness :
  exists out log2,
    resize vault "photo.png" "instagram" [] = (inr out, log2)
    /\ size out = (1080, 1080) /\ im_mode out = RGB.
Proof.
  destruct (resize_returns_target_size vault "photo.png" "instagram" []
              (mkImage RGB 1920 1080 (fun _ _ => (1, 2, 3)))
              [Image_open_call "photo.png"] 1080 1080
              eq_refl eq_refl eq_refl eq_refl
              ltac:(vm_compute; discriminate) ltac:(vm_compute; discriminate))
    as (out & Hr & _).
  exists out. eexists. split; [exact Hr |].
  pose proof (resize_output_pixels vault "photo.png" "instagram" []
                (mkImage RGB 1920 1080 (fun _ _ => (1, 2, 3)))
                [Image_open_call "photo.png"] 1080 1080 out _
                eq_refl eq_refl eq_refl eq_refl Hr) as P.
  cbv zeta in P. destruct P as (S & M & _). split; assumption.
Defined.

(** X4.  For every valid profile and every source of positive size that is
    at most 600 times as wide as high and at most 600 times as high as wide,
    [resize] returns an RGB image of exactly the target size. *)
Theorem resize_returns_for_moderate_aspect E url platform log im log1 tw th :
  load_image E url log = (inr im, log1) ->
  lookup (lower platform) PLATFORM_SIZES = Some (tw, th) ->
  0 < width im -> 0 < height im ->
  width im <= 600 * height im -> height im <= 600 * width im ->
  exists out log2,
    resize E url platform log = (inr out, log2)
    /\ size out = (tw, th) /\ im_mode out = RGB.
Proof.
  intros Hl Hp Hw Hh Rw Rh.
  destruct (scaled_size_positive _ _ _ _ _ Hp Hw Hh Rw Rh) as [Pw Ph].
  rewrite (resize_loaded _ _ _ _ _ _ Hl), Hp.
  destruct (Z.eqb_spec (width im) 0); [lia |].
  destruct (Z.eqb_spec (height im) 0); [lia |]. cbn [orb]. cbv zeta.
  destruct (Z.ltb_spec (new_width tw th (width im) (height im)) 1); [lia |].
  destruct (Z.ltb_spec (new_height tw th (width im) (height im)) 1); [lia |].
  cbn [orb]. eexists. eexists. split; [reflexivity |]. split; reflexivity.
Qed.

Lemma resize_returns_for_moderate_aspect_witness :
  exists out log2,
    resize vault "photo.png" "facebook" [] = (inr out, log2)
    /\ size out = (1200, 630) /\ im_mode out = RGB.
Proof.
  apply (resize_returns_for_moderate_aspect vault "photo.png" "facebook" []
           (mkImage RGB 1920 1080 (fun _ _ => (1, 2, 3)))
           [Image_open_call "photo.png"] 1200 630);
    [reflexivity | reflexivity | reflexivity | reflexivity | discriminate | discriminate].
Defined.

(* ===================================================================== *)
(** * [load_image]: which branch, and what it calls *)

Lemma lower_append s t :
  lower (String.append s t) = String.append (lower s) (lower t).
Proof. induction s as [| c s IH]; cbn; [reflexivity | rewrite IH; reflexivity]. Qed.

Lemma startswith_append p r : startswith (String.append p r) p = true.
Proof.
  induction p as [| c p IH]; cbn; [destruct r; reflexivity |].
  rewrite Ascii.eqb_refl, IH. reflexivity.
Qed.

Lemma scheme_any_case scheme rest p :
  lower p = p ->
  eq_ignore_case scheme p = true ->
  startswith (lower (String.append scheme rest)) p = true.
Proof.
  intros Hp H. apply eq_ignore_case_lower in H.
  rewrite lower_append, H, Hp. apply startswith_append.
Qed.

(** [load_image] on an address the scheme test accepts. *)
Lemma load_image_url E url log :
  startswith (lower url) "http://" || startswith (lower url) "https://" = true ->
  load_image E url log =
  match requests_get E url with
  | inl e => (inl (LibraryError e), log ++ [requests_get_call url])
  | inr r =>
      if (400 <=? status_code r) && (status_code r <? 600)
      then (inl (LibraryError ("HTTPError", "bad status")), log ++ [requests_get_call url])
      else
        (match Image_open_bytes E (content r) with
         | inl e => inl (LibraryError e)
         | inr im => inr (convert E RGB im)
         end,
         log ++ [requests_get_call url; Image_open_bytes_call (content r)])
  end.
Proof.
  intros H. unfold load_image. rewrite H.
  unfold bind, raise_for_status, raise, ret. rewrite lib_call_result.
  destruct (requests_get E url) as [e | r]; [reflexivity |].
  destruct ((400 <=? status_code r) && (status_code r <? 600)); [reflexivity |].
  rewrite lib_call_result, <- app_assoc.
  destruct (Image_open_bytes E (content r)); reflexivity.
Qed.

(** [load_image] on anything else: the path is opened as a file. *)
Lemma load_image_path E url log :
  startswith (lower url) "http://" || startswith (lower url) "https://" = false ->
  load_image E url log =
  (match Image_open E url with
   | inl e => inl (LibraryError e)
   | inr im => inr (convert E RGB im)
   end, log ++ [Image_open_call url]).
Proof.
  intros H. unfold load_image. rewrite H. unfold bind, ret.
  rewrite lib_call_result. destruct (Image_open E url); reflexivity.
Qed.

(** X5.  The scheme of an address is matched whatever its letter case: an
    address that begins with [http://] or [https://] in any mix of capitals
    is fetched with [requests.get], its payload is decoded at most once, and
    no file is opened. *)
Theorem load_image_fetches_any_case_scheme E scheme rest log :
  eq_ignore_case scheme "http://" = true
  \/ eq_ignore_case scheme "https://" = true ->
  let url := String.append scheme rest in
  exists calls,
    snd (load_image E url log) = log ++ requests_get_call url :: calls
    /\ (calls = [] \/ exists data, calls = [Image_open_bytes_call data]).
Proof.
  intros H url.
  assert (U : startswith (lower url) "http://" || startswith (lower url) "https://" = true).
  { destruct H as [H | H].
    - unfold url. rewrite (scheme_any_case scheme rest "http://" eq_refl H). reflexivity.
    - unfold url. rewrite (scheme_any_case scheme rest "https://" eq_refl H).
      apply orb_true_r. }
  rewrite (load_image_url _ _ _ U).
  destruct (requests_get E url) as [e | r]; cbn [snd]; [exists []; auto |].
  destruct ((400 <=? status_code r) && (status_code r <? 600)); cbn [snd];
    [exists []; auto |].
  exists [Image_open_bytes_call (content r)]. split; [reflexivity | eauto].
Qed.

Lemma load_image_fetches_any_case_scheme_witness :
  exists calls,
    snd (load_image vault (String.append "HTTPS://" "example.org/a.png") [])
    = [] ++ requests_get_call (String.append "HTTPS://" "example.org/a.png") :: calls
    /\ (calls = [] \/ exists data, calls = [Image_open_bytes_call data]).
Proof.
  apply (load_image_fetches_any_case_scheme vault "HTTPS://" "example.org/a.png" []).
  right. reflexivity.
Defined.

(** X6.  When the server answers with a status from 400 to 599,
    [load_image] raises the [HTTPError] of [raise_for_status] and the payload
    is never decoded: the fetch is its only call. *)
Theorem load_image_http_error_status E url log r :
  startswith (lower url) "http://" || startswith (lower url) "https://" = true ->
  requests_get E url = inr r ->
  400 <= status_code r < 600 ->
  exists msg,
    load_image E url log
    = (inl (LibraryError ("HTTPError", msg)), log ++ [requests_get_call url]).
Proof.
  intros U Hr Hs. rewrite (load_image_url _ _ _ U), Hr.
  destruct (Z.leb_spec 400 (status_code r)); [| lia].
  destruct (Z.ltb_spec (status_code r) 600); [| lia].
  cbn [andb]. eexists. reflexivity.
Qed.

Lemma load_image_http_error_status_witness :
  exists msg,
    load_image vault "https://example.org/gone.png" []
    = (inl (LibraryError ("HTTPError", msg)),
       [] ++ [requests_get_call "https://example.org/gone.png"]).
Proof.
  apply (load_image_http_error_status vault "https://example.org/gone.png" []
           (mkResponse 404 [])); [reflexivity | reflexivity | split; [discriminate | reflexivity]].
Defined.

(* ===================================================================== *)
(** * Computations over the world: what they add and what they raise *)

Lemma add_events_nil w : add_events w [] = w.
Proof. destruct w. unfold add_events; cbn. rewrite app_nil_r. reflexivity. Qed.

Lemma add_events_app w a b :
  add_events (add_events w a) b = add_events w (a ++ b).
Proof. unfold add_events; cbn. rewrite app_assoc. reflexivity. Qed.

Section Emits.

Variable P : event -> Prop.
Variable Q : exn -> Prop.

Lemma emits_pure {A} (a : A) : emits P Q (pure a).
Proof.
  intros w r w' [= <- <-]. split; [| discriminate].
  exists []. rewrite add_events_nil. auto.
Qed.

Lemma emits_throw {A} e : Q e -> emits P Q (@throw A e).
Proof.
  intros He w r w' [= <- <-]. split; [| intros e' [= <-]; exact He].
  exists []. rewrite add_events_nil. auto.
Qed.

Lemma emits_print text : P (Printed text) -> emits P Q (print text).
Proof.
  intros Hp w r w' [= <- <-]. split; [| discriminate]. eauto.
Qed.

Lemma emits_plt D c :
  P (Plt c) -> (forall le, Q (LibraryError le)) -> emits P Q (plt D c).
Proof.
  intros Hp Hq w r w' [= <- <-]. split; [eauto |].
  intros e. destruct (pyplot D c) as [le | []]; [intros [= <-]; apply Hq | discriminate].
Qed.

Lemma emits_answer {A} (r : lib_exn + A) :
  (forall le, Q (LibraryError le)) -> emits P Q (answer r).
Proof.
  intros Hq w r' w' [= <- <-]. split.
  - exists []. rewrite add_events_nil. auto.
  - intros e. destruct r; [intros [= <-]; apply Hq | discriminate].
Qed.

Lemma emits_lift {A} (m : io A) :
  Forall P (map Lib (snd (m []))) ->
  (forall e, fst (m []) = inl e -> Q e) ->
  emits P Q (lift m).
Proof. intros Hp Hq w r w' [= <- <-]. split; eauto. Qed.

Lemma emits_lib_call {A} c (r : lib_exn + A) :
  P (Lib c) -> (forall le, Q (LibraryError le)) ->
  emits P Q (lift (lib_call c r)).
Proof.
  intros Hp Hq. apply emits_lift; rewrite lib_call_result; cbn.
  - auto.
  - intros e. destruct r; [intros [= <-]; apply Hq | discriminate].
Qed.

Lemma emits_and_then {A B} (m : prog A) (k : A -> prog B) :
  emits P Q m -> (forall a, emits P Q (k a)) -> emits P Q (and_then m k).
Proof.
  intros Hm Hk w r w'. unfold and_then.
  destruct (m w) as [[e | a] w1] eqn:E; destruct (Hm _ _ _ E) as [(e1 & -> & F1) Q1].
  - intros [= <- <-]. split; [eauto | intros e0 [= <-]; apply Q1; reflexivity].
  - intros H. destruct (Hk a _ _ _ H) as [(e2 & -> & F2) Q2].
    split; [| exact Q2]. exists (e1 ++ e2).
    rewrite add_events_app. split; [reflexivity | apply Forall_app; auto].
Qed.

End Emits.

Lemma emits_try_except {A} P Q Q' (body : prog A) (handler : exn -> prog A) :
  emits P Q' body -> (forall e, emits P Q (handler e)) ->
  emits P Q (try_except body handler).
Proof.
  intros Hb Hh w r w'. unfold try_except.
  destruct (body w) as [[e | a] w1] eqn:E; destruct (Hb _ _ _ E) as [(e1 & -> & F1) Q1].
  - intros H. destruct (Hh e _ _ _ H) as [(e2 & -> & F2) Q2].
    split; [| exact Q2]. exists (e1 ++ e2).
    rewrite add_events_app. split; [reflexivity | apply Forall_app; auto].
  - intros [= <- <-]. split; [eauto | discriminate].
Qed.

Lemma emits_weaken {A} (P P' : event -> Prop) (Q Q' : exn -> Prop) (m : prog A) :
  (forall e, P e -> P' e) -> (forall e, Q e -> Q' e) ->
  emits P Q m -> emits P' Q' m.
Proof.
  intros HP HQ Hm w r w' E. destruct (Hm _ _ _ E) as [(evs & -> & F) Hq].
  split; [| auto]. exists evs. split; [reflexivity |].
  eapply Forall_impl; eauto.
Qed.

(** A chain of pyplot calls, library calls and prints, one step at a time. *)
Ltac emits_steps :=
  repeat first
    [ apply emits_pure
    | apply emits_plt; [cbn; auto | intros; unfold from_library; eauto]
    | apply emits_lib_call; [cbn; auto | intros; unfold from_library; eauto]
    | apply emits_answer; intros; unfold from_library; eauto
    | apply emits_print; cbn; auto
    | apply emits_and_then; [| intros ] ].

(* ===================================================================== *)
(** * [equalize], [compare], [apply_filter], [see_filters] *)

Lemma sketch_person_calls E image output log :
  exists calls,
    snd (sketch_person E image output true log) = log ++ calls
    /\ Forall local_call calls.
Proof.
  unfold sketch_person, bind, ret; cbn [negb]. rewrite lib_call_result.
  destruct (Image_open E image) as [le | opened].
  - exists [Image_open_call image]. split; [reflexivity | repeat constructor].
  - rewrite lib_call_result.
    exists [Image_open_call image; Image_save_call output].
    split; [| repeat constructor].
    destruct (save E _ output) as [le | []]; cbn [snd];
      rewrite <- app_assoc; reflexivity.
Qed.

Lemma compare_emits D original equalized output_name :
  emits (fun e => exists c, e = Plt c) from_library
    (compare D original equalized output_name).
Proof. unfold compare. emits_steps; eauto. Qed.

Lemma off_line_apply_filter D image name :
  emits off_line (fun e => e = invalid_filter \/ from_library e)
    (apply_filter D image name).
Proof.
  unfold apply_filter. destruct (lookup (upper name) FILTERS) as [kernel |].
  - eapply emits_weaken with (P := off_line) (Q := from_library); [auto | auto |].
    emits_steps.
  - apply emits_throw. auto.
Qed.

Lemma see_filters_loop_emits D img P :
  (forall c, P (Plt c)) ->
  forall items i, emits P from_library (see_filters_loop D img items i).
Proof.
  intros HP items. induction items as [| [name kernel] rest IH]; intros i; cbn.
  - apply emits_pure.
  - apply emits_and_then;
      [apply emits_answer; unfold from_library; eauto | intros img_f].
    repeat (apply emits_and_then; [apply emits_plt; [apply HP | unfold from_library; eauto] | intros _]).
    apply IH.
Qed.

(** X7.  Only [resize] goes to the network.  [equalize], [apply_filter],
    [see_filters] and [sketch_person] hand the path to [Image.open] as it is:
    even for an [http://] address they never call [requests.get] and never
    decode a downloaded payload. *)
Theorem only_resize_fetches D image :
  (forall log, snd (equalize D image log) = log ++ [Image_open_call image])
  /\ (forall output log,
        exists calls,
          snd (sketch_person (pillow D) image output true log) = log ++ calls
          /\ Forall local_call calls)
  /\ (forall name w r w',
        apply_filter D image name w = (r, w') ->
        exists evs, w' = add_events w evs /\ Forall off_line evs)
  /\ (forall w r w',
        see_filters D image w = (r, w') ->
        exists evs, w' = add_events w evs /\ Forall off_line evs).
Proof.
  split; [| split; [| split]].
  - intros log. unfold equalize, bind, ret. rewrite lib_call_result.
    destruct (Image_open (pillow D) image); reflexivity.
  - intros output log. apply sketch_person_calls.
  - intros name w r w' H. apply (off_line_apply_filter D image name _ _ _ H).
  - intros w r w' H.
    assert (E : emits off_line from_library (see_filters D image)).
    { unfold see_filters.
      apply emits_and_then; [apply emits_lib_call; [cbn; auto | unfold from_library; eauto] |].
      intros img.
      repeat (apply emits_and_then;
              [first [ apply emits_plt; [cbn; auto | unfold from_library; eauto]
                     | apply see_filters_loop_emits; cbn; auto ] | intros _]).
      apply emits_plt; [cbn; auto | unfold from_library; eauto]. }
    apply (E _ _ _ H).
Qed.

Lemma same_letter_upper a b :
  same_letter a b = true -> upper_char a = upper_char b.
Proof.
  assert (Up : forall x y,
             is_upper (N_of_ascii x) = true ->
             N_of_ascii y = (N_of_ascii x + 32)%N ->
             upper_char x = upper_char y).
  { intros x y U E. unfold upper_char. rewrite E.
    unfold is_upper in U. set (n := N_of_ascii x) in *.
    assert (S : ((97 <=? n + 32) && (n + 32 <=? 122)
                 || (224 <=? n + 32) && (n + 32 <=? 254) && negb (n + 32 =? 247))%N = true).
    { destruct (N.leb_spec 65 n), (N.leb_spec n 90), (N.leb_spec 192 n),
        (N.leb_spec n 222), (N.eqb_spec n 215); cbn in U; try discriminate;
        destruct (N.leb_spec 97 (n + 32)), (N.leb_spec (n + 32) 122),
          (N.leb_spec 224 (n + 32)), (N.leb_spec (n + 32) 254),
          (N.eqb_spec (n + 32) 247); cbn; try reflexivity; lia. }
    assert (T : ((97 <=? n) && (n <=? 122)
                 || (224 <=? n) && (n <=? 254) && negb (n =? 247))%N = false).
    { destruct (N.leb_spec 65 n), (N.leb_spec n 90), (N.leb_spec 192 n),
        (N.leb_spec n 222), (N.eqb_spec n 215); cbn in U; try discriminate;
        destruct (N.leb_spec 97 n), (N.leb_spec n 122),
          (N.leb_spec 224 n), (N.leb_spec n 254); cbn; try reflexivity; lia. }
    assert (V : (n =? 223)%N = false).
    { apply N.eqb_neq. intros V. rewrite V in U. discriminate. }
    rewrite S, T, V. replace (n + 32 - 32)%N with n by lia.
    unfold n. rewrite ascii_N_embedding. reflexivity. }
  unfold same_letter. intros H.
  apply orb_prop in H as [H | H]; [apply orb_prop in H as [H | H] |].
  - apply N.eqb_eq in H.
    rewrite <- (ascii_N_embedding a), H, ascii_N_embedding. reflexivity.
  - apply andb_prop in H as [U E]. apply N.eqb_eq in E. apply Up; assumption.
  - apply andb_prop in H as [U E]. apply N.eqb_eq in E. symmetry. apply Up; assumption.
Qed.

Lemma eq_ignore_case_upper s : forall t,
  eq_ignore_case s t = true -> upper s = upper t.
Proof.
  induction s as [| a s IH]; intros [| b t]; cbn; try discriminate; [reflexivity |].
  intros H. apply andb_prop in H as [Hc Hs].
  rewrite (same_letter_upper _ _ Hc), (IH t Hs). reflexivity.
Qed.

Lemma upper_filter_name key :
  In key (map fst FILTERS) -> upper key = key.
Proof.
  cbn. intros H.
  repeat (destruct H as [<- | H]; [reflexivity |]). destruct H.
Qed.

(** What a computation returns when it returns. *)
Lemma and_then_inr {A B} (m : prog A) (k : A -> prog B) w b w' :
  and_then m k w = (inr b, w') ->
  exists a w1, m w = (inr a, w1) /\ k a w1 = (inr b, w').
Proof.
  unfold and_then. destruct (m w) as [[e | a] w1]; [discriminate |]. eauto.
Qed.

Lemma plt_inr D c w a w1 :
  plt D c w = (inr a, w1) -> w1 = add_events w [Plt c].
Proof. unfold plt. intros [= _ <-]. reflexivity. Qed.

Lemma answer_inr {A} (r : lib_exn + A) w a w1 :
  answer r w = (inr a, w1) -> r = inr a /\ w1 = w.
Proof. unfold answer. destruct r; intros [= <- <-]; auto. Qed.

Lemma lift_lib_call {A} c (r : lib_exn + A) w :
  lift (lib_call c r) w =
  (match r with inl e => inl (LibraryError e) | inr a => inr a end,
   add_events w [Lib c]).
Proof. unfold lift. rewrite lib_call_result. reflexivity. Qed.

Lemma apply_filter_valid_emits D image name kernel :
  lookup (upper name) FILTERS = Some kernel ->
  emits off_line from_library (apply_filter D image name).
Proof. intros H. unfold apply_filter. rewrite H. emits_steps. Qed.

(** X8.  [apply_filter] raises [ValueError("Filtro invalido")] exactly when
    the name in capitals is not one of the nine keys of [FILTERS], and then
    before anything else happens: the image is not opened, nothing is saved
    or plotted. *)
Theorem apply_filter_invalid_name D image name w :
  (fst (apply_filter D image name w) = inl invalid_filter
   <-> lookup (upper name) FILTERS = None)
  /\ (lookup (upper name) FILTERS = None ->
      apply_filter D image name w = (inl invalid_filter, w)).
Proof.
  assert (N : lookup (upper name) FILTERS = None ->
              apply_filter D image name w = (inl invalid_filter, w)).
  { intros H. unfold apply_filter. rewrite H. reflexivity. }
  split; [| exact N]. split.
  - destruct (lookup (upper name) FILTERS) as [kernel |] eqn:L; [| reflexivity].
    intros H. exfalso.
    destruct (apply_filter D image name w) as [r w'] eqn:E.
    destruct (apply_filter_valid_emits D image name kernel L _ _ _ E) as [_ Q].
    cbn [fst] in H. destruct (Q _ H) as [le Hle]. discriminate.
  - intros H. rewrite (N H). reflexivity.
Qed.

(** X9.  Filter names are matched whatever their letter case: a name equal
    to a key of [FILTERS] up to case selects that key's filter and makes
    [apply_filter] behave exactly as the key itself does, file names
    included. *)
Theorem apply_filter_case_insensitive D image name key w :
  In key (map fst FILTERS) ->
  eq_ignore_case name key = true ->
  apply_filter D image name w = apply_filter D image key w
  /\ upper name = key
  /\ exists kernel, lookup (upper name) FILTERS = Some kernel
                    /\ In (key, kernel) FILTERS.
Proof.
  intros Hin Heq.
  pose proof (eq_ignore_case_upper _ _ Heq) as Hu.
  rewrite (upper_filter_name _ Hin) in Hu.
  split; [| split; [exact Hu |]].
  - unfold apply_filter. rewrite Hu, (upper_filter_name _ Hin). reflexivity.
  - rewrite Hu. clear Hu Heq. cbn in Hin.
    repeat (destruct Hin as [<- | Hin];
            [eexists; split; [reflexivity | cbn; tauto] |]).
    destruct Hin.
Qed.

Lemma apply_filter_case_insensitive_witness :
  apply_filter atelier "photo.png" "Edge_Enhance" (start [])
  = apply_filter atelier "photo.png" "EDGE_ENHANCE" (start []).
Proof.
  apply (apply_filter_case_insensitive atelier "photo.png"
           "Edge_Enhance" "EDGE_ENHANCE" (start [])).
  - cbn. tauto.
  - reflexivity.
Defined.

(** X10.  With a valid name and an image that opens, [apply_filter]
    filters the image as opened.  When [img.filter] refuses it (a palette
    image), that error is raised right after the open: nothing is saved and
    nothing is plotted.  Otherwise the filtered image is saved as
    [result_<KEY>.jpg] right after the open and before any plot; when that
    save fails the error is raised and nothing is plotted; and when
    [apply_filter] returns, it returns the filtered image, and everything
    after the save is a pyplot call. *)
Theorem apply_filter_saves_before_plotting D image name kernel img w :
  lookup (upper name) FILTERS = Some kernel ->
  Image_open (pillow D) image = inr img ->
  let save_name := String.append "result_" (String.append (upper name) ".jpg") in
  let first := [Lib (Image_open_call image); Lib (Image_save_call save_name)] in
  (forall e, Image_filter D kernel img = inl e ->
             apply_filter D image name w
             = (inl (LibraryError e), add_events w [Lib (Image_open_call image)]))
  /\ (forall out, Image_filter D kernel img = inr out ->
        (forall e, save (pillow D) out save_name = inl e ->
                   apply_filter D image name w
                   = (inl (LibraryError e), add_events w first))
        /\ exists evs,
             snd (apply_filter D image name w) = add_events w (first ++ evs)
             /\ Forall (fun ev => exists c, ev = Plt c) evs
             /\ (forall x, fst (apply_filter D image name w) = inr x -> x = out)).
Proof.
  intros Hk Ho save_name first.
  destruct (apply_filter D image name w) as [r w'] eqn:R. cbn [fst snd].
  unfold apply_filter in R. rewrite Hk in R.
  unfold and_then at 1 in R. rewrite lift_lib_call, Ho in R.
  unfold and_then at 1, answer at 1 in R.
  split.
  - intros e Hf. rewrite Hf in R. injection R as <- <-. reflexivity.
  - intros out Hf. rewrite Hf in R.
    unfold and_then at 1 in R. rewrite lift_lib_call, add_events_app in R.
    fold save_name in R.
    change ([Lib (Image_open_call image)] ++ [Lib (Image_save_call save_name)])
      with first in R.
    destruct (save (pillow D) out save_name) as [e | []].
    + injection R as <- <-. split; [intros e' [= <-]; reflexivity |].
      exists []. rewrite app_nil_r.
      split; [reflexivity | split; [constructor | discriminate]].
    + split; [discriminate |].
      match type of R with ?m (add_events w first) = _ => set (tail := m) in * end.
      assert (E : emits (fun ev => exists c, ev = Plt c) from_library tail).
      { unfold tail. emits_steps; eauto. }
      destruct (E _ _ _ R) as [(evs & -> & F) _].
      exists evs. rewrite add_events_app.
      split; [reflexivity | split; [exact F |]].
      intros x ->. unfold tail in R.
      repeat (apply and_then_inr in R as (? & ? & _ & R)).
      injection R as <- _. reflexivity.
Qed.

Lemma apply_filter_saves_before_plotting_witness :
  apply_filter atelier "logo.gif" "blur" (start [])
  = (inl (LibraryError ("ValueError", "cannot filter palette images")),
     add_events (start []) [Lib (Image_open_call "logo.gif")])
  /\ apply_filter atelier "photo.png" "blur" (start [])
     = (inl (LibraryError ("OSError", "disk full")),
        add_events (start [])
          [Lib (Image_open_call "photo.png"); Lib (Image_save_call "result_BLUR.jpg")]).
Proof.
  split.
  - apply (proj1 (apply_filter_saves_before_plotting atelier "logo.gif" "blur" BLUR
                    (mkImage P 64 64 (fun _ _ => (7, 7, 7))) (start [])
                    eq_refl eq_refl)).
    reflexivity.
  - apply (proj2 (apply_filter_saves_before_plotting atelier "photo.png" "blur" BLUR
                    (mkImage RGB 1920 1080 (fun _ _ => (1, 2, 3))) (start [])
                    eq_refl eq_refl)
             (mkImage RGB 1920 1080 (fun _ _ => (1, 2, 3))) eq_refl).
    reflexivity.
Defined.

(* ===================================================================== *)
(** * [see_filters]: the mosaic *)

Lemma subplots_app a b : subplots (a ++ b) = subplots a ++ subplots b.
Proof. unfold subplots. apply flat_map_app. Qed.

Lemma add_events_inj w a b : add_events w a = add_events w b -> a = b.
Proof.
  unfold add_events. intros H. injection H as H.
  apply app_inv_head in H. exact H.
Qed.

Lemma in_grid_subplots evs :
  Forall in_grid evs ->
  Forall (fun s => fst (fst s) = 2 /\ snd (fst s) = 5 /\ 1 <= snd s <= 10)
    (subplots evs).
Proof.
  induction 1 as [| e evs He _ IH]; cbn; [constructor |].
  destruct e as [c | [] | t | p]; cbn; try exact IH.
  constructor; [exact He | exact IH].
Qed.

Lemma see_filters_loop_in_grid D img : forall items i,
  1 <= i -> i + Z.of_nat (List.length items) <= 11 ->
  emits in_grid from_library (see_filters_loop D img items i).
Proof.
  induction items as [| [name kernel] rest IH]; intros i Hi Hn;
    cbn [see_filters_loop].
  - apply emits_pure.
  - cbn [List.length] in Hn.
    apply emits_and_then;
      [apply emits_answer; unfold from_library; eauto | intros img_f].
    apply emits_and_then;
      [apply emits_plt; [cbn; lia | unfold from_library; eauto] | intros _].
    repeat (apply emits_and_then;
            [apply emits_plt; [exact I | unfold from_library; eauto] | intros _]).
    apply IH; lia.
Qed.

Lemma see_filters_loop_returns D img : forall items i w j w',
  see_filters_loop D img items i w = (inr j, w') ->
  exists evs,
    w' = add_events w evs
    /\ subplots evs
       = map (fun n => (2, 5, i + Z.of_nat n)) (seq 0 (List.length items)).
Proof.
  induction items as [| [name kernel] rest IH]; intros i w j w' H;
    cbn [see_filters_loop] in H.
  - injection H as _ <-. exists []. rewrite add_events_nil. split; reflexivity.
  - apply and_then_inr in H as (img_f & w0 & H0 & H).
    apply answer_inr in H0 as [_ ->].
    apply and_then_inr in H as (? & w1 & H1 & H). apply plt_inr in H1. subst w1.
    apply and_then_inr in H as (? & w2 & H2 & H). apply plt_inr in H2. subst w2.
    apply and_then_inr in H as (? & w3 & H3 & H). apply plt_inr in H3. subst w3.
    apply and_then_inr in H as (? & w4 & H4 & H). apply plt_inr in H4. subst w4.
    destruct (IH _ _ _ _ H) as (evs & -> & S).
    rewrite !add_events_app. eexists. split; [reflexivity |].
    rewrite !subplots_app, S. cbn [subplots flat_map List.app List.length seq map].
    rewrite Z.add_0_r. f_equal.
    rewrite <- seq_shift, map_map. apply map_ext. intros n.
    f_equal. lia.
Qed.

(** X11.  [see_filters] stays inside its 2 x 5 mosaic: every cell it asks
    pyplot for is one of the cells 1..10 of a 2 x 5 grid, whatever fails on
    the way; and when it returns it has used the cells 1, 2, ..., 10 in this
    order, once each (the original and the nine filters), and ended with
    the layout, the save to [mosaico_9_filters.jpg] and the show. *)
Theorem see_filters_grid D image w :
  exists evs,
    snd (see_filters D image w) = add_events w evs
    /\ Forall (fun s => fst (fst s) = 2 /\ snd (fst s) = 5 /\ 1 <= snd s <= 10)
         (subplots evs)
    /\ (fst (see_filters D image w) = inr tt ->
        subplots evs = map (fun k => (2, 5, k)) [1; 2; 3; 4; 5; 6; 7; 8; 9; 10]
        /\ exists before,
             evs = before ++ [Plt plt_tight_layout;
                              Plt (plt_savefig "mosaico_9_filters.jpg" None);
                              Plt plt_show]).
Proof.
  assert (E : emits in_grid from_library (see_filters D image)).
  { unfold see_filters.
    apply emits_and_then;
      [apply emits_lib_call; [exact I | unfold from_library; eauto] |].
    intros img.
    apply emits_and_then;
      [apply emits_plt; [exact I | unfold from_library; eauto] | intros _].
    apply emits_and_then;
      [apply emits_plt; [cbn; lia | unfold from_library; eauto] | intros _].
    apply emits_and_then;
      [apply emits_plt; [exact I | unfold from_library; eauto] | intros _].
    apply emits_and_then;
      [apply emits_plt; [exact I | unfold from_library; eauto] | intros _].
    apply emits_and_then;
      [apply emits_plt; [exact I | unfold from_library; eauto] | intros _].
    apply emits_and_then;
      [apply see_filters_loop_in_grid; cbn; lia | intros _].
    apply emits_and_then;
      [apply emits_plt; [exact I | unfold from_library; eauto] | intros _].
    apply emits_and_then;
      [apply emits_plt; [exact I | unfold from_library; eauto] | intros _].
    apply emits_plt; [exact I | unfold from_library; eauto]. }
  destruct (see_filters D image w) as [r w'] eqn:H.
  destruct (E _ _ _ H) as [(evs & -> & F) _].
  exists evs. cbn [fst snd].
  split; [reflexivity | split; [apply in_grid_subplots, F |]].
  intros ->. unfold see_filters in H.
  apply and_then_inr in H as (img & w0 & H0 & H).
  rewrite lift_lib_call in H0. injection H0 as _ <-.
  apply and_then_inr in H as (? & w1 & H1 & H). apply plt_inr in H1. subst w1.
  apply and_then_inr in H as (? & w2 & H2 & H). apply plt_inr in H2. subst w2.
  apply and_then_inr in H as (? & w3 & H3 & H). apply plt_inr in H3. subst w3.
  apply and_then_inr in H as (? & w4 & H4 & H). apply plt_inr in H4. subst w4.
  apply and_then_inr in H as (? & w5 & H5 & H). apply plt_inr in H5. subst w5.
  apply and_then_inr in H as (j & w6 & H6 & H).
  apply see_filters_loop_returns in H6 as (loop & -> & S).
  apply and_then_inr in H as (? & w7 & H7 & H). apply plt_inr in H7. subst w7.
  apply and_then_inr in H as (? & w8 & H8 & H). apply plt_inr in H8. subst w8.
  apply plt_inr in H.
  rewrite !add_events_app in H. apply add_events_inj in H. subst evs.
  split.
  - rewrite !subplots_app, S. reflexivity.
  - exists ([Lib (Image_open_call image); Plt (plt_figure (14, 6));
             Plt (plt_subplot 2 5 1); Plt (plt_imshow img);
             Plt (plt_title "Original" None); Plt (plt_axis "off")] ++ loop).
    rewrite <- !app_assoc. reflexivity.
Qed.

(* ===================================================================== *)
(** * The menu *)

Section Respects.

Variable R : world -> world -> Prop.
Hypothesis R_refl : forall w, R w w.
Hypothesis R_trans : forall a b c, R a b -> R b c -> R a c.
Hypothesis R_events : forall w evs, R w (add_events w evs).

Lemma respects_pure {A} (a : A) : respects R (pure a).
Proof using R_refl. intros w r w' [= _ <-]. apply R_refl. Qed.

Lemma respects_throw {A} e : respects R (@throw A e).
Proof using R_refl. intros w r w' [= _ <-]. apply R_refl. Qed.

Lemma respects_emits {A} P Q (m : prog A) : emits P Q m -> respects R m.
Proof using R_events.
  intros E w r w' H. destruct (E _ _ _ H) as [(evs & -> & _) _]. apply R_events.
Qed.

Lemma respects_answer {A} (r : lib_exn + A) : respects R (answer r).
Proof using R_refl. intros w r' w' [= _ <-]. apply R_refl. Qed.

Lemma respects_lift {A} (m : io A) : respects R (lift m).
Proof using R_events. intros w r w' [= _ <-]. apply R_events. Qed.

Lemma respects_print text : respects R (print text).
Proof using R_events. intros w r w' [= _ <-]. apply R_events. Qed.

Lemma respects_the_url : respects R the_url.
Proof using R_refl.
  intros w r w'. unfold the_url.
  destruct (current_url w); intros [= _ <-]; apply R_refl.
Qed.

Lemma respects_and_then {A B} (m : prog A) (k : A -> prog B) :
  respects R m -> (forall a, respects R (k a)) -> respects R (and_then m k).
Proof using R_trans.
  intros Hm Hk w r w'. unfold and_then.
  destruct (m w) as [[e | a] w1] eqn:E.
  - intros [= _ <-]. apply (Hm _ _ _ E).
  - intros H. apply (R_trans _ w1); [apply (Hm _ _ _ E) | apply (Hk _ _ _ _ H)].
Qed.

Lemma respects_try_except {A} (body : prog A) handler :
  respects R body -> (forall e, respects R (handler e)) ->
  respects R (try_except body handler).
Proof using R_trans.
  intros Hb Hh w r w'. unfold try_except.
  destruct (body w) as [[e | a] w1] eqn:E.
  - intros H. apply (R_trans _ w1); [apply (Hb _ _ _ E) | apply (Hh _ _ _ _ H)].
  - intros [= _ <-]. apply (Hb _ _ _ E).
Qed.

End Respects.

Lemma shorter_refl w : shorter w w.
Proof. unfold shorter. lia. Qed.

Lemma shorter_trans a b c : shorter a b -> shorter b c -> shorter a c.
Proof. unfold shorter. lia. Qed.

Lemma shorter_events w evs : shorter w (add_events w evs).
Proof. unfold shorter, add_events; cbn. lia. Qed.

Lemma same_globals_refl w : same_globals w w.
Proof. split; reflexivity. Qed.

Lemma same_globals_trans a b c :
  same_globals a b -> same_globals b c -> same_globals a c.
Proof. unfold same_globals. intros [-> ->] [-> ->]. auto. Qed.

Lemma same_globals_events w evs : same_globals w (add_events w evs).
Proof. split; reflexivity. Qed.

Lemma input_shorter prompt : respects shorter (input prompt).
Proof.
  intros w r w'. unfold input, shorter.
  destruct (stdin w) as [| line rest] eqn:S; intros [= _ <-]; cbn;
    rewrite ?S; cbn; lia.
Qed.

Lemma input_same_globals prompt : respects same_globals (input prompt).
Proof.
  intros w r w'. unfold input.
  destruct (stdin w) as [| line rest]; intros [= _ <-]; split; reflexivity.
Qed.

Lemma set_current_image_shorter v : respects shorter (set_current_image v).
Proof. intros w r w' [= _ <-]. unfold shorter; cbn. lia. Qed.

Lemma set_current_url_shorter v : respects shorter (set_current_url v).
Proof. intros w r w' [= _ <-]. unfold shorter; cbn. lia. Qed.

(** The steps of the menu, one at a time, for a relation that events do
    not disturb. *)
Ltac respects_steps refl trans events :=
  repeat first
    [ apply (respects_pure _ refl)
    | apply (respects_throw _ refl)
    | apply (respects_print _ events)
    | apply (respects_lift _ events)
    | apply (respects_answer _ refl)
    | apply (respects_the_url _ refl)
    | apply (respects_emits _ events _ _ _ (off_line_apply_filter _ _ _))
    | apply (respects_emits _ events _ _ _ (compare_emits _ _ _ _))
    | apply input_shorter
    | apply input_same_globals
    | apply set_current_image_shorter
    | apply set_current_url_shorter
    | apply (respects_try_except _ trans); [| intros ]
    | apply (respects_and_then _ trans); [| intros ] ].

Lemma menu_option_shorter D option : respects shorter (menu_option D option).
Proof.
  unfold menu_option.
  destruct (String.eqb option "1");
    [respects_steps shorter_refl shorter_trans shorter_events |].
  destruct (existsb (String.eqb option) ["2"; "3"; "4"; "5"]).
  - intros w r w'. destruct (current_image w); [| intros [= _ <-]; apply shorter_refl].
    revert w r w'. change (respects shorter ?m) with (respects shorter m).
    destruct (String.eqb option "2");
      [respects_steps shorter_refl shorter_trans shorter_events |].
    destruct (String.eqb option "3");
      [respects_steps shorter_refl shorter_trans shorter_events |].
    destruct (String.eqb option "4");
      respects_steps shorter_refl shorter_trans shorter_events.
  - destruct (String.eqb option "0");
      respects_steps shorter_refl shorter_trans shorter_events.
Qed.

(** Every option but the first leaves the global variables alone. *)
Lemma menu_option_same_globals D option :
  String.eqb option "1" = false ->
  respects same_globals (menu_option D option).
Proof.
  intros N. unfold menu_option. rewrite N.
  destruct (existsb (String.eqb option) ["2"; "3"; "4"; "5"]).
  - intros w r w'. destruct (current_image w); [| intros [= _ <-]; apply same_globals_refl].
    revert w r w'. change (respects same_globals ?m) with (respects same_globals m).
    destruct (String.eqb option "2");
      [respects_steps same_globals_refl same_globals_trans same_globals_events |].
    destruct (String.eqb option "3");
      [respects_steps same_globals_refl same_globals_trans same_globals_events |].
    destruct (String.eqb option "4");
      respects_steps same_globals_refl same_globals_trans same_globals_events.
  - destruct (String.eqb option "0");
      respects_steps same_globals_refl same_globals_trans same_globals_events.
Qed.

(** Only option 0 breaks out of the loop. *)
Lemma menu_option_break D option w w' :
  menu_option D option w = (inr true, w') ->
  option = "0" /\ w' = add_events w [Printed "saliendo..."].
Proof.
  unfold menu_option. intros H.
  destruct (String.eqb option "1").
  { repeat (apply and_then_inr in H as (? & ? & _ & H)). discriminate. }
  destruct (existsb (String.eqb option) ["2"; "3"; "4"; "5"]).
  { destruct (current_image w); [| discriminate].
    destruct (String.eqb option "2");
      [repeat (apply and_then_inr in H as (? & ? & _ & H)); discriminate |].
    destruct (String.eqb option "3");
      [repeat (apply and_then_inr in H as (? & ? & _ & H)); discriminate |].
    destruct (String.eqb option "4");
      repeat (apply and_then_inr in H as (? & ? & _ & H)); discriminate. }
  destruct (String.eqb_spec option "0") as [-> | _].
  - injection H as <-. auto.
  - repeat (apply and_then_inr in H as (? & ? & _ & H)). discriminate.
Qed.

(** One turn: at the end of the input it raises [EOFError]; otherwise it
    reads at least one line and raises nothing. *)
Lemma menu_iteration_cases D w :
  (stdin w = []
   /\ menu_iteration D w
      = (inl EOFError,
         add_events w [Printed MENU_TITLE; Printed MENU;
                       Prompted "Ingrese una opcion: "]))
  \/ (exists b w',
        menu_iteration D w = (inr b, w')
        /\ (List.length (stdin w') < List.length (stdin w))%nat
        /\ (b = true -> exists evs, events w' = evs ++ [Printed "saliendo..."])).
Proof.
  unfold menu_iteration, and_then, print, input. cbn [stdin add_events].
  destruct (stdin w) as [| option rest] eqn:S.
  - left. split; [reflexivity |].
    unfold add_events; cbn. rewrite S, <- !app_assoc. reflexivity.
  - right. unfold try_except.
    match goal with
    | |- context [menu_option D option ?w2] => set (w2' := w2)
    end.
    destruct (menu_option D option w2') as [[e | b] w3] eqn:M;
      pose proof (menu_option_shorter D option _ _ _ M) as L;
      unfold shorter in L; cbn in L.
    + eexists. eexists. split; [reflexivity |].
      split; [cbn; apply Nat.lt_succ_r; exact L | discriminate].
    + exists b, w3. split; [reflexivity |].
      split; [cbn; apply Nat.lt_succ_r; exact L |].
      intros ->. apply menu_option_break in M as [_ ->].
      eexists. unfold add_events; cbn. reflexivity.
Qed.

(** X12.  On every finite input [main] ends, and in one of two ways only:
    it returns after reading option 0, its last act being to print
    [saliendo...]; or it raises [EOFError] at the option prompt because the
    input ran out.  No error of an option ever ends the run. *)
Theorem main_terminates D w :
  exists r w',
    main D w = Some (r, w')
    /\ ((r = inr tt /\ exists evs, events w' = evs ++ [Printed "saliendo..."])
        \/ (r = inl EOFError /\ stdin w' = [])).
Proof.
  unfold main.
  assert (G : forall fuel w0,
             (List.length (stdin w0) < fuel)%nat ->
             exists r w',
               main_loop D fuel w0 = Some (r, w')
               /\ ((r = inr tt /\ exists evs, events w' = evs ++ [Printed "saliendo..."])
                   \/ (r = inl EOFError /\ stdin w' = []))).
  { induction fuel as [| fuel IH]; intros w0 Hf; [lia |].
    cbn [main_loop].
    destruct (menu_iteration_cases D w0) as [[S ->] | (b & w1 & -> & L & B)].
    - eexists. eexists. split; [reflexivity |]. right.
      split; [reflexivity | cbn; exact S].
    - destruct b.
      + eexists. eexists. split; [reflexivity |]. left. auto.
      + apply IH. lia. }
  apply G. lia.
Qed.

(** X13.  Nothing is processed before an image is loaded: while
    [current_image] is [None], each of the options 2, 3, 4 and 5 only prints
    [Error: Debes de cargar la imagen primero.]; it reads no further line,
    calls no library and leaves both global variables as they were. *)
Theorem menu_requires_loaded_image D w option rest :
  stdin w = option :: rest ->
  In option ["2"; "3"; "4"; "5"] ->
  current_image w = None ->
  menu_iteration D w
  = (inr false,
     mkWorld rest
       (events w ++ [Printed MENU_TITLE; Printed MENU;
                     Prompted "Ingrese una opcion: ";
                     Printed "Error: Debes de cargar la imagen primero."])
       None (current_url w)).
Proof.
  intros S Hin Hc. destruct w as [si ev ci cu]. cbn in S, Hc. subst si ci.
  destruct Hin as [<- | [<- | [<- | [<- | []]]]];
    cbn; unfold pure, add_events; cbn [stdin events current_image current_url];
    rewrite <- !app_assoc; reflexivity.
Qed.

Lemma menu_requires_loaded_image_witness :
  menu_iteration atelier (start ["3"; "0"])
  = (inr false,
     mkWorld ["0"]
       (events (start ["3"; "0"])
        ++ [Printed MENU_TITLE; Printed MENU;
            Prompted "Ingrese una opcion: ";
            Printed "Error: Debes de cargar la imagen primero."])
       None (current_url (start ["3"; "0"]))).
Proof.
  apply (menu_requires_loaded_image atelier (start ["3"; "0"]) "3" ["0"]).
  - reflexivity.
  - right. left. reflexivity.
  - reflexivity.
Defined.

Lemma consistent_same_globals D w w' :
  same_globals w w' -> consistent D w -> consistent D w'.
Proof.
  intros [Hi Hu] C im H. rewrite Hi in H. rewrite Hu. apply C, H.
Qed.

Lemma menu_option_consistent D option w r w' :
  consistent D w -> menu_option D option w = (r, w') -> consistent D w'.
Proof.
  intros C H. destruct (String.eqb option "1") eqn:O.
  - unfold menu_option in H. rewrite O in H.
    unfold and_then at 1 in H. unfold input in H.
    destruct (stdin w) as [| url rest].
    + injection H as _ <-. apply (consistent_same_globals D w); [| exact C].
      apply same_globals_events.
    + unfold and_then at 1, set_current_url in H.
      cbn [stdin events current_image current_url] in H.
      unfold and_then at 1, try_except in H.
      unfold and_then at 1 in H. rewrite lift_lib_call in H.
      destruct (Image_open (pillow D) url) as [e | im] eqn:Op.
      * unfold and_then, print, set_current_image, pure in H.
        injection H as _ <-. intros im Him. discriminate.
      * unfold and_then, print, set_current_image, pure in H.
        injection H as _ <-. intros im' Him. cbn in Him.
        injection Him as <-. exists url. cbn. auto.
  - apply (consistent_same_globals D w); [| exact C].
    apply (menu_option_same_globals D option O _ _ _ H).
Qed.

Lemma menu_iteration_consistent D w r w' :
  consistent D w -> menu_iteration D w = (r, w') -> consistent D w'.
Proof.
  intros C. unfold menu_iteration, and_then, print, input.
  cbn [stdin add_events].
  destruct (stdin w) as [| option rest].
  - intros [= _ <-]. intros im H. apply C, H.
  - unfold try_except.
    match goal with
    | |- context [menu_option D option ?w2] => set (w2' := w2)
    end.
    assert (C2 : consistent D w2') by (intros im H; apply C, H).
    destruct (menu_option D option w2') as [[e | b] w3] eqn:M;
      pose proof (menu_option_consistent D option _ _ _ C2 M) as C3.
    + intros [= _ <-]. intros im H. apply C3, H.
    + intros [= _ <-]. exact C3.
Qed.

(** An option that works on the loaded image passes on the path in
    [current_url]. *)
Lemma menu_option_loaded D option w im url :
  In option ["2"; "3"; "4"; "5"] ->
  current_image w = Some im ->
  current_url w = Some url ->
  menu_option D option w = loaded_option D option url w.
Proof.
  intros Hin Hi Hu. destruct w as [si ev ci cu]. cbn in Hi, Hu. subst ci cu.
  destruct Hin as [<- | [<- | [<- | [<- | []]]]];
    unfold menu_option, loaded_option;
    cbn [String.eqb Ascii.eqb Bool.eqb existsb orb current_image];
    unfold and_then, input, the_url; cbn [stdin current_url];
    try reflexivity;
    destruct si; reflexivity.
Qed.

(** Where a run ends, it is in a turn that began in a world it visited. *)
Lemma main_loop_last_turn D : forall fuel w0 w r w',
  visits D w0 w ->
  main_loop D fuel w = Some (r, w') ->
  exists v,
    visits D w0 v
    /\ menu_iteration D v
       = (match r with inl e => inl e | inr _ => inr true end, w').
Proof.
  induction fuel as [| fuel IH]; intros w0 w r w' V H; [discriminate |].
  cbn [main_loop] in H.
  destruct (menu_iteration D w) as [[e | b] w1] eqn:M.
  - injection H as <- <-. exists w. auto.
  - destruct b.
    + injection H as <- <-. exists w. auto.
    + apply (IH w0 w1 r w'); [apply (visits_next D w0 w w1 V M) | exact H].
Qed.

Lemma visits_consistent D w0 w :
  consistent D w0 -> visits D w0 w -> consistent D w.
Proof.
  intros C V. induction V as [| w w' V IH M]; [exact C |].
  apply (menu_iteration_consistent D w _ _ IH M).
Qed.

(** X14.  The two global variables stay in step through a whole run of
    [main]: in every world in which the run starts a turn of the menu, and
    in the world it ends in, whenever [current_image] holds an image,
    [current_url] holds the path [Image.open] produced it from.  And in
    such a turn the options 2 to 5 call [resize], [equalize], [apply_filter]
    and [sketch_person] on that very path, one [Image.open] accepted. *)
Theorem main_keeps_globals_consistent D w0 :
  consistent D w0 ->
  (forall w, visits D w0 w ->
     consistent D w
     /\ forall im, current_image w = Some im ->
          exists url,
            current_url w = Some url
            /\ Image_open (pillow D) url = inr im
            /\ forall option w1,
                 In option ["2"; "3"; "4"; "5"] -> same_globals w w1 ->
                 menu_option D option w1 = loaded_option D option url w1)
  /\ (forall r w',
        main D w0 = Some (r, w') ->
        consistent D w'
        /\ exists w,
             visits D w0 w
             /\ menu_iteration D w
                = (match r with inl e => inl e | inr _ => inr true end, w')).
Proof.
  intros C. split.
  - intros w V. pose proof (visits_consistent D w0 w C V) as Cw.
    split; [exact Cw |].
    intros im Hi. destruct (Cw im Hi) as (url & Hu & Ho).
    exists url. split; [exact Hu | split; [exact Ho |]].
    intros option w1 Hin [Si Su].
    apply (menu_option_loaded D option w1 im url Hin); congruence.
  - intros r w' H. unfold main in H.
    destruct (main_loop_last_turn D _ w0 w0 r w' (visits_first D w0) H)
      as (v & V & M).
    split; [| exists v; auto].
    apply (menu_iteration_consistent D v _ _ (visits_consistent D w0 v C V) M).
Qed.

Lemma main_keeps_globals_consistent_witness :
  let w0 := start ["1"; "photo.png"; "3"; "0"] in
  let w1 := snd (menu_iteration atelier w0) in
  exists url,
    current_url w1 = Some url
    /\ Image_open vault url = inr (solid 1920 1080 (1, 2, 3))
    /\ menu_option atelier "3" w1 = loaded_option atelier "3" url w1.
Proof.
  intros w0 w1.
  assert (C : consistent atelier w0) by (intros im H; discriminate).
  assert (V : visits atelier w0 w1)
    by (apply (visits_next atelier w0 w0 w1 (visits_first atelier w0));
        reflexivity).
  destruct (proj1 (main_keeps_globals_consistent atelier w0 C) w1 V) as [_ H].
  destruct (H (solid 1920 1080 (1, 2, 3)) eq_refl) as (url & Hu & Ho & Heq).
  exists url. split; [exact Hu | split; [exact Ho |]].
  apply Heq; [right; left; reflexivity | apply same_globals_refl].
Defined.

(** X15.  A load that fails leaves no image behind: when [Image.open]
    raises on the path typed at option 1, the message is printed,
    [current_image] becomes [None], also if an image was loaded before, and
    [current_url] keeps the path that failed. *)
Theorem menu_failed_load_clears_image D w url rest e :
  stdin w = "1" :: url :: rest ->
  Image_open (pillow D) url = inl e ->
  menu_iteration D w
  = (inr false,
     mkWorld rest
       (events w ++ [Printed MENU_TITLE; Printed MENU;
                     Prompted "Ingrese una opcion: ";
                     Prompted "Ingrese URL o ruta de la imagen: ";
                     Lib (Image_open_call url);
                     Printed (String.append "[x] Error al cargar la imagen [x] > "
                                (snd e))])
       None (Some url)).
Proof.
  intros S Op. destruct w as [si ev ci cu]. cbn in S. subst si.
  unfold menu_iteration, menu_option, and_then, print, input, try_except,
    set_current_url, set_current_image, pure, add_events;
    cbn [stdin events current_image current_url String.eqb Ascii.eqb Bool.eqb].
  rewrite lift_lib_call, Op. destruct e as [cls msg].
  unfold add_events; cbn [stdin events current_image current_url str_exn snd].
  rewrite <- !app_assoc. reflexivity.
Qed.

Lemma menu_failed_load_clears_image_witness :
  menu_iteration atelier (mkWorld ["1"; "nope.png"] []
                            (Some (solid 1920 1080 (1, 2, 3))) (Some "photo.png"))
  = (inr false,
     mkWorld []
       ([] ++ [Printed MENU_TITLE; Printed MENU;
               Prompted "Ingrese una opcion: ";
               Prompted "Ingrese URL o ruta de la imagen: ";
               Lib (Image_open_call "nope.png");
               Printed (String.append "[x] Error al cargar la imagen [x] > "
                          (snd ("FileNotFoundError", "nope.png")))])
       None (Some "nope.png")).
Proof.
  apply (menu_failed_load_clears_image atelier
           (mkWorld ["1"; "nope.png"] []
              (Some (solid 1920 1080 (1, 2, 3))) (Some "photo.png"))
           "nope.png" [] ("FileNotFoundError", "nope.png"));
    reflexivity.
Defined.

(** X16.  An unknown platform typed at option 2 costs nothing: the image is
    loaded again, [resize] raises its [ValueError], the menu prints
    [Error: Plataforma no valida.], nothing is resampled or saved, and the
    loaded image stays loaded. *)
Theorem menu_unknown_platform D w platform rest im url loaded log1 :
  stdin w = "2" :: platform :: rest ->
  current_image w = Some im ->
  current_url w = Some url ->
  load_image (pillow D) url [] = (inr loaded, log1) ->
  lookup (lower platform) PLATFORM_SIZES = None ->
  menu_iteration D w
  = (inr false,
     mkWorld rest
       (events w
        ++ [Printed MENU_TITLE; Printed MENU;
            Prompted "Ingrese una opcion: ";
            Prompted "Plataforma (youtube / instagram / twitter / facebook): "]
        ++ map Lib log1
        ++ [Printed "Error: Plataforma no valida."])
       (Some im) (Some url)).
Proof.
  intros S Hi Hu Hl Hp. destruct w as [si ev ci cu]. cbn in S, Hi, Hu.
  subst si ci cu.
  pose proof (resize_loaded (pillow D) url platform [] loaded log1 Hl) as Hr.
  rewrite Hp in Hr.
  unfold menu_iteration, menu_option, and_then, print, input, try_except,
    the_url, pure, add_events;
    cbn [stdin events current_image current_url String.eqb Ascii.eqb Bool.eqb
         existsb orb].
  unfold lift. rewrite Hr.
  unfold add_events; cbn [stdin events current_image current_url fst snd str_exn
                          invalid_platform].
  rewrite <- !app_assoc. reflexivity.
Qed.

Lemma menu_unknown_platform_witness :
  menu_iteration atelier (mkWorld ["2"; "tiktok"] []
                            (Some (solid 1920 1080 (1, 2, 3))) (Some "photo.png"))
  = (inr false,
     mkWorld []
       ([] ++ [Printed MENU_TITLE; Printed MENU;
               Prompted "Ingrese una opcion: ";
               Prompted "Plataforma (youtube / instagram / twitter / facebook): "]
        ++ map Lib [Image_open_call "photo.png"]
        ++ [Printed "Error: Plataforma no valida."])
       (Some (solid 1920 1080 (1, 2, 3))) (Some "photo.png")).
Proof.
  apply (menu_unknown_platform atelier
           (mkWorld ["2"; "tiktok"] []
              (Some (solid 1920 1080 (1, 2, 3))) (Some "photo.png"))
           "tiktok" [] (solid 1920 1080 (1, 2, 3)) "photo.png"
           (mkImage RGB 1920 1080 (fun _ _ => (1, 2, 3)))
           [Image_open_call "photo.png"]);
    reflexivity.
Defined.
